(** * TypeRepresentation: the type registry and its layout engine

    A shallow embedding of [src/TypeRepresentation/Types.h] (namespace
    [Types], struct [TypeManager]) and the properties of its layout
    computation.

    Conventions of the embedding.
    - A C++ [int] is a [Z]; the results of [+], [-] and [*] are reduced
      to the 32-bit two's-complement range ([wrap]), which is what the
      targets of this code compute on overflow; [/] and [%] truncate
      towards zero ([Z.quot], [Z.rem]).  A [%] whose divisor is zero (or
      whose quotient is not representable) has no result: it is the
      [Crash] outcome.
    - The four [std::unordered_map] members are [gmap]s.
      [unordered_map::insert] keeps an existing entry ([map_insert_new]);
      [operator[]] creates a zero entry when the key is absent
      ([map_index]).
    - [getSizeof] is recursive in the source with a depth cap; the
      embedding is a [Fixpoint] on a fuel argument that mirrors the
      source's own [depth] test, and [OutOfFuel] is the outcome of a
      run that needs more recursion than the fuel allows. *)

From Stdlib Require Import ZArith Lia Bool String Ascii List.
From stdpp Require Import base option list gmap strings countable fin_maps.

Open Scope string_scope.
Open Scope Z_scope.

(** ** Machine integers *)

Module Int.

Definition min_int : Z := - 2 ^ 31.
Definition max_int : Z := 2 ^ 31 - 1.

Definition in_range (z : Z) : Prop := min_int <= z <= max_int.

(** Two's-complement reduction of an arithmetic result to [int]. *)
Definition wrap (z : Z) : Z := (z + 2 ^ 31) mod 2 ^ 32 - 2 ^ 31.

Definition add (a b : Z) : Z := wrap (a + b).
Definition sub (a b : Z) : Z := wrap (a - b).
Definition mul (a b : Z) : Z := wrap (a * b).

(** [a / b] for a non-zero constant divisor. *)
Definition div (a b : Z) : Z := Z.quot a b.

End Int.

(** ** Outcomes of a call *)

Inductive outcome (A : Type) : Type :=
  | Ok (a : A)
  | Crash
  | OutOfFuel.

Arguments Ok {A} a.
Arguments Crash {A}.
Arguments OutOfFuel {A}.

#[global] Instance outcome_ret : MRet outcome := fun A a => Ok a.

#[global] Instance outcome_bind : MBind outcome := fun A B f m =>
  match m with
  | Ok a => f a
  | Crash => Crash
  | OutOfFuel => OutOfFuel
  end.

(** [a % b]: undefined for [b = 0] and for [INT_MIN % -1]. *)
Definition int_rem (a b : Z) : outcome Z :=
  if b =? 0 then Crash
  else if (a =? Int.min_int) && (b =? -1) then Crash
  else Ok (Z.rem a b).

(** ** Data model *)

Inductive Primitive : Set :=
  | Int8 | Uint8 | Int16 | Uint16 | Int32 | Uint32 | Int64 | Uint64
  | Dsint | Duint | Pointer | Float | Double.

#[global] Instance Primitive_eq_dec : EqDecision Primitive.
Proof. solve_decision. Defined.

Definition Primitive_to_nat (p : Primitive) : nat :=
  match p with
  | Int8 => 0 | Uint8 => 1 | Int16 => 2 | Uint16 => 3 | Int32 => 4
  | Uint32 => 5 | Int64 => 6 | Uint64 => 7 | Dsint => 8 | Duint => 9
  | Pointer => 10 | Float => 11 | Double => 12
  end%nat.

Definition Primitive_of_nat (n : nat) : option Primitive :=
  match n with
  | 0 => Some Int8 | 1 => Some Uint8 | 2 => Some Int16 | 3 => Some Uint16
  | 4 => Some Int32 | 5 => Some Uint32 | 6 => Some Int64 | 7 => Some Uint64
  | 8 => Some Dsint | 9 => Some Duint | 10 => Some Pointer
  | 11 => Some Float | 12 => Some Double | _ => None
  end%nat.

#[global] Instance Primitive_countable : Countable Primitive.
Proof.
  apply (inj_countable Primitive_to_nat Primitive_of_nat).
  intros []; reflexivity.
Defined.

Record Type_ : Type := mkType {
  t_name : string;          (* Type identifier. *)
  t_primitive : Primitive;  (* Primitive type. *)
  t_bitsize : Z;            (* Size in bits. *)
  t_pointto : string        (* Type identifier of *Type *)
}.

Record Member : Type := mkMember {
  m_name : string;   (* Member identifier *)
  m_type : string;   (* Type.name *)
  m_offset : Z;      (* Member offset in Struct (ignored for unions) *)
  m_arrsize : Z      (* Number of elements if Member is an array *)
}.

Record StructUnion : Type := mkStructUnion {
  isunion : bool;          (* Is this a union? *)
  alignment : Z;           (* StructUnion alignment *)
  su_name : string;        (* StructUnion identifier *)
  members : list Member    (* StructUnion members *)
}.

Record TypeManager : Type := mkTypeManager {
  primitives : gmap string Primitive;
  primitivesizes : gmap Primitive Z;
  types : gmap string Type_;
  structs : gmap string StructUnion;
  laststruct : string
}.

(** ** The two ways the source writes into an [unordered_map] *)

(** [map.insert({k, v})]: no effect when [k] is already a key. *)
Definition map_insert_new `{Countable K} {V} (k : K) (v : V)
    (m : gmap K V) : gmap K V :=
  match m !! k with
  | Some _ => m
  | None => <[k := v]> m
  end.

(** [map[k]] as an rvalue: the mapped value, after creating the entry
    [k -> 0] when there is none. *)
Definition map_index `{Countable K} (k : K) (m : gmap K Z) : Z * gmap K Z :=
  match m !! k with
  | Some v => (v, m)
  | None => (0, <[k := 0]> m)
  end.

(** [mapContains] *)
Definition mapContains `{Countable K} {V} (m : gmap K V) (k : K) : bool :=
  match m !! k with
  | Some _ => true
  | None => false
  end.

(** ** Construction: [setupPrimitives] *)

(** Modelled from the spec: the values of the [sizeof] expressions of
    [setupPrimitives], which the compiler supplies and the source does
    not hold.  They are the byte widths the specification documents for
    the spellings (P2: [int32_t] is 4 bytes, [uint8_t] is 1, [double] is
    8; a [short] stands under "int16", a [long long] under "int64").
    [sizeof(void* )], the "native pointer width", is an argument of the
    constructor instead. *)
Definition sizeof_char : Z := 1.
Definition sizeof_short : Z := 2.
Definition sizeof_int : Z := 4.
Definition sizeof_long_long : Z := 8.
Definition sizeof_float : Z := 4.
Definition sizeof_double : Z := 8.

(** The loop of the lambda [p]: [a] is the spelling read so far. *)
Fixpoint p_loop (n : string) (p : Primitive) (a : string)
    (prims : gmap string Primitive) : string * gmap string Primitive :=
  match n with
  | EmptyString => (a, prims)
  | String ch n' =>
      if Ascii.eqb ch ","%char then
        p_loop n' p ""
          (if (0 <? String.length a)%nat then map_insert_new a p prims
           else prims)
      else p_loop n' p (a +:+ String ch "") prims
  end.

(** The lambda [p] of [setupPrimitives]. *)
Definition p (n : string) (pr : Primitive) (bitsize : Z)
    (tm : TypeManager) : TypeManager :=
  let '(a, prims) := p_loop n pr "" (primitives tm) in
  let prims' :=
    if (0 <? String.length a)%nat then map_insert_new a pr prims else prims in
  mkTypeManager prims' (<[pr := bitsize]> (primitivesizes tm))
    (types tm) (structs tm) (laststruct tm).

Definition setupPrimitives (sizeof_ptr : Z) (tm : TypeManager) : TypeManager :=
  let tm := p "int8_t,int8,char,byte,bool,signed char" Int8 (sizeof_char * 8) tm in
  let tm := p "uint8_t,uint8,uchar,unsigned char,ubyte" Uint8 (sizeof_char * 8) tm in
  let tm := p "int16_t,int16,wchar_t,char16_t,short" Int16 (sizeof_short * 8) tm in
  let tm := p "uint16_t,uint16,ushort,unsigned short" Int16 (sizeof_short * 8) tm in
  let tm := p "int32_t,int32,int,long" Int32 (sizeof_int * 8) tm in
  let tm := p "uint32_t,uint32,unsigned int,unsigned long" Uint32 (sizeof_int * 8) tm in
  let tm := p "int64_t,int64,long long" Int64 (sizeof_long_long * 8) tm in
  let tm := p "uint64_t,uint64,unsigned long long" Uint64 (sizeof_long_long * 8) tm in
  let tm := p "dsint" Dsint (sizeof_ptr * 8) tm in
  let tm := p "duint,size_t" Duint (sizeof_ptr * 8) tm in
  let tm := p "ptr,void*" Pointer (sizeof_ptr * 8) tm in
  let tm := p "float" Float (sizeof_float * 8) tm in
  let tm := p "double" Double (sizeof_double * 8) tm in
  tm.

(** [TypeManager()] on a target whose pointers are [sizeof_ptr] bytes. *)
Definition TypeManager_new (sizeof_ptr : Z) : TypeManager :=
  setupPrimitives sizeof_ptr (mkTypeManager ∅ ∅ ∅ ∅ "").

(** ** Registration *)

Definition set_primitivesizes (ps : gmap Primitive Z) (tm : TypeManager) :=
  mkTypeManager (primitives tm) ps (types tm) (structs tm) (laststruct tm).
Definition set_types (ts : gmap string Type_) (tm : TypeManager) :=
  mkTypeManager (primitives tm) (primitivesizes tm) ts (structs tm)
    (laststruct tm).
Definition set_structs (ss : gmap string StructUnion) (tm : TypeManager) :=
  mkTypeManager (primitives tm) (primitivesizes tm) (types tm) ss
    (laststruct tm).
Definition set_laststruct (l : string) (tm : TypeManager) :=
  mkTypeManager (primitives tm) (primitivesizes tm) (types tm) (structs tm) l.

Definition isDefined (tm : TypeManager) (id : string) : bool :=
  mapContains (primitives tm) id || mapContains (types tm) id
  || mapContains (structs tm) id.

(** [bool AddType(const Type & t)] *)
Definition AddType_t (tm : TypeManager) (t : Type_) : bool * TypeManager :=
  if isDefined tm (t_name t) then (false, tm)
  else (true, set_types (map_insert_new (t_name t) t (types tm)) tm).

(** [bool AddType(name, Primitive primitive, int bitsize = 0, pointto = "")].
    The read [primitivesizes[primitive]] is an [operator[]]: it leaves a
    zero entry behind when the kind has none. *)
Definition AddType (tm : TypeManager) (name : string) (primitive : Primitive)
    (bitsize : Z) (pointto : string) : bool * TypeManager :=
  if isDefined tm name then (false, tm)
  else
    let '(primsize, sizes) := map_index primitive (primitivesizes tm) in
    let tm := set_primitivesizes sizes tm in
    if bitsize <=? 0 then AddType_t tm (mkType name primitive primsize pointto)
    else if bitsize >? primsize then (false, tm)
    else AddType_t tm (mkType name primitive bitsize pointto).

(** [bool AddType(name, const std::string & primitive)] *)
Definition AddType_str (tm : TypeManager) (name primitive : string)
    : bool * TypeManager :=
  match primitives tm !! primitive with
  | None => (false, tm)
  | Some found => AddType tm name found 0 ""
  end.

(** A default-constructed [StructUnion]: [alignment = sizeof(void* )]. *)
Definition StructUnion_default (sizeof_ptr : Z) : StructUnion :=
  mkStructUnion false sizeof_ptr "" [].

(** [bool AddStruct(const StructUnion & s)] *)
Definition AddStruct_s (tm : TypeManager) (s : StructUnion)
    : bool * TypeManager :=
  let tm := set_laststruct (su_name s) tm in
  if isDefined tm (su_name s) then (false, tm)
  else (true, set_structs (map_insert_new (su_name s) s (structs tm)) tm).

(** [bool AddStruct(name, int alignment = 0)] *)
Definition AddStruct (sizeof_ptr : Z) (tm : TypeManager) (name : string)
    (align : Z) : bool * TypeManager :=
  let s := StructUnion_default sizeof_ptr in
  let s := mkStructUnion (isunion s) (alignment s) name (members s) in
  let s :=
    if align >? 0 then mkStructUnion (isunion s) align (su_name s) (members s)
    else s in
  AddStruct_s tm s.

(** [bool AddUnion(const StructUnion & u)] *)
Definition AddUnion_u (tm : TypeManager) (u : StructUnion)
    : bool * TypeManager :=
  let tm := set_laststruct (su_name u) tm in
  if isDefined tm (su_name u) then (false, tm)
  else (true, set_structs (map_insert_new (su_name u) u (structs tm)) tm).

(** [bool AddUnion(name, int alignment = 0)] *)
Definition AddUnion (sizeof_ptr : Z) (tm : TypeManager) (name : string)
    (align : Z) : bool * TypeManager :=
  let u := StructUnion_default sizeof_ptr in
  let u := mkStructUnion true (alignment u) (su_name u) (members u) in
  let u := mkStructUnion (isunion u) (alignment u) name (members u) in
  let u :=
    if align >? 0 then mkStructUnion (isunion u) align (su_name u) (members u)
    else u in
  AddUnion_u tm u.

(** ** The layout engine: [getSizeof] *)

(** The number of elements a member counts for:
    [member.arrsize ? member.arrsize : 1]. *)
Definition arr_count (m : Member) : Z :=
  if m_arrsize m =? 0 then 1 else m_arrsize m.

(** The [for] loop of the union branch.  [rec] is the recursive call
    [getSizeof(_, nullptr, depth + 1)]; the result [None] is the
    [return 0] from inside the loop, [Some size] the value of [size]
    when the loop runs to its end. *)
Fixpoint union_loop (rec : string -> outcome Z) (ms : list Member)
    (size : Z) : outcome (option Z) :=
  match ms with
  | [] => Ok (Some size)
  | member :: ms' =>
      r ← rec (m_type member);
      let membersize := Int.mul r (arr_count member) in
      if membersize =? 0 then Ok None
      else union_loop rec ms'
             (if membersize >? size then membersize else size)
  end.

(** The struct branch: only [s.members[s.members.size() - 1]] is
    resolved.  The caller has checked that there is a member. *)
Definition struct_last (rec : string -> outcome Z) (ms : list Member)
    : outcome (option Z) :=
  match last ms with
  | None => Crash
  | Some last_ =>
      r ← rec (m_type last_);
      let lastsize := Int.mul r (arr_count last_) in
      if lastsize =? 0 then Ok None
      else Ok (Some (Int.add (m_offset last_) lastsize))
  end.

(** The tail of [getSizeof]: rounding [size] up to [s.alignment].  The
    second component is what is stored through [alignment]. *)
Definition align_up (size align : Z) : outcome (Z * option Z) :=
  mod_ ← int_rem size align;
  if mod_ =? 0 then Ok (size, Some 0)
  else Ok (Int.add size (Int.sub align mod_), Some (Int.sub align mod_)).

(** [int getSizeof(const std::string & type, int* alignment, int depth)].

    The result is the returned size together with the value the call
    stores through [alignment] when that pointer is not null: [None]
    when it stores nothing (the [depth >= 100] exit comes before the
    store), [Some 0] after [*alignment = 0], [Some pad] after the store
    in the rounding step.

    [primitivesizes[foundP->second]] is read with the table's default;
    the kinds the spellings map to all have an entry (lemma
    [reachable_sizes_present]), so this [operator[]] creates none. *)
Fixpoint getSizeof (fuel : nat) (tm : TypeManager) (type : string)
    (depth : Z) : outcome (Z * option Z) :=
  match fuel with
  | O => OutOfFuel
  | S fuel' =>
      if depth >=? 100 then Ok (0, None)
      else
        match primitives tm !! type with
        | Some foundP =>
            Ok (Int.div (map_index foundP (primitivesizes tm)).1 8, Some 0)
        | None =>
            match types tm !! type with
            | Some foundT =>
                let bitsize := t_bitsize foundT in
                let mod_ := Z.rem bitsize 8 in
                let bitsize :=
                  if mod_ =? 0 then bitsize
                  else Int.add bitsize (Int.sub 8 mod_) in
                Ok (Int.div bitsize 8, Some 0)
            | None =>
                match structs tm !! type with
                | None => Ok (0, Some 0)
                | Some s =>
                    if (length (members s) =? 0)%nat then Ok (0, Some 0)
                    else
                      let rec := fun t =>
                        r ← getSizeof fuel' tm t (depth + 1); Ok r.1 in
                      size ←
                        (if isunion s then union_loop rec (members s) 0
                         else struct_last rec (members s));
                      match size with
                      | None => Ok (0, Some 0)
                      | Some size => align_up size (alignment s)
                      end
                end
            end
        end
  end.

(** The fuel given to the calls that start at depth 0: one unit for
    each of the depths 0 to 100. *)
Definition depth_fuel : nat := 101.

(** [int Sizeof(const std::string & type)] *)
Definition Sizeof (tm : TypeManager) (type : string) : outcome Z :=
  r ← getSizeof depth_fuel tm type 0; Ok r.1.

Arguments Sizeof : simpl never.

(** ** Members *)

(** [s.members.push_back(m)] on the aggregate found under [parent]. *)
Definition push_member (tm : TypeManager) (parent : string) (s : StructUnion)
    (m : Member) : TypeManager :=
  set_structs
    (<[parent := mkStructUnion (isunion s) (alignment s) (su_name s)
                   (members s ++ [m])]> (structs tm)) tm.

(** [bool AddMember(parent, name, type, int offset = -1, int arrsize = 0)].
    The three tests of the first [if] have no effect on the state, so
    the lookup of [parent] is matched on first.  The local
    [int alignment] has no initial value; reading it when the call
    stored nothing would be a [Crash]. *)
Definition AddMember (tm : TypeManager) (parent name type : string)
    (offset arrsize : Z) : outcome (bool * TypeManager) :=
  match structs tm !! parent with
  | None => Ok (false, tm)
  | Some s =>
      if (arrsize <? 0) || negb (isDefined tm type) then Ok (false, tm)
      else if existsb (fun member => String.eqb (m_name member) name)
                (members s)
      then Ok (false, tm)
      else if offset <? 0 then
        '(size, stored) ← getSizeof depth_fuel tm parent 0;
        if negb (length (members s) =? 0)%nat && (size =? 0)
        then Ok (false, tm)
        else
          typesize ← Sizeof tm type;
          match stored with
          | None => Crash
          | Some pad =>
              let offset' :=
                if negb (pad =? 0) && (typesize <=? pad)
                then Int.sub size pad else size in
              Ok (true, push_member tm parent s
                          (mkMember name type offset' arrsize))
          end
      else
        Ok (true, push_member tm parent s (mkMember name type offset arrsize))
  end.

(** [bool AppendMember(name, type, int offset = -1, int arrsize = 0)] *)
Definition AppendMember (tm : TypeManager) (name type : string)
    (offset arrsize : Z) : outcome (bool * TypeManager) :=
  AddMember tm (laststruct tm) name type offset arrsize.

(** [bool AddMember(const std::string & parent, const Member & member)] *)
Definition AddMember_m (tm : TypeManager) (parent : string) (member : Member)
    : bool * TypeManager :=
  match structs tm !! parent with
  | None => (false, tm)
  | Some s => (true, push_member tm parent s member)
  end.

(** Default arguments of the source. *)
Definition auto_offset : Z := -1.

(** ** Clients of the registry *)

(** The public member functions, as the calls a client can make.  The
    arguments the source defaults are written out: [bitsize = 0],
    [pointto = ""], [alignment = 0], [offset = -1], [arrsize = 0]. *)
Inductive call : Type :=
  | CAddType_str (name primitive : string)
  | CAddType (name : string) (primitive : Primitive) (bitsize : Z)
      (pointto : string)
  | CAddType_t (t : Type_)
  | CAddStruct (name : string) (align : Z)
  | CAddStruct_s (s : StructUnion)
  | CAddUnion (name : string) (align : Z)
  | CAddUnion_u (u : StructUnion)
  | CAppendMember (name type : string) (offset arrsize : Z)
  | CAddMember (parent name type : string) (offset arrsize : Z)
  | CAddMember_m (parent : string) (member : Member).

Definition exec (sizeof_ptr : Z) (c : call) (tm : TypeManager)
    : outcome (bool * TypeManager) :=
  match c with
  | CAddType_str name primitive => Ok (AddType_str tm name primitive)
  | CAddType name primitive bitsize pointto =>
      Ok (AddType tm name primitive bitsize pointto)
  | CAddType_t t => Ok (AddType_t tm t)
  | CAddStruct name align => Ok (AddStruct sizeof_ptr tm name align)
  | CAddStruct_s s => Ok (AddStruct_s tm s)
  | CAddUnion name align => Ok (AddUnion sizeof_ptr tm name align)
  | CAddUnion_u u => Ok (AddUnion_u tm u)
  | CAppendMember name type offset arrsize =>
      AppendMember tm name type offset arrsize
  | CAddMember parent name type offset arrsize =>
      AddMember tm parent name type offset arrsize
  | CAddMember_m parent member => Ok (AddMember_m tm parent member)
  end.

(** A client program: the calls in order, with the values they return. *)
Fixpoint run (sizeof_ptr : Z) (cs : list call) (tm : TypeManager)
    : outcome (list bool * TypeManager) :=
  match cs with
  | [] => Ok ([], tm)
  | c :: cs' =>
      '(b, tm') ← exec sizeof_ptr c tm;
      '(bs, tm'') ← run sizeof_ptr cs' tm';
      Ok (b :: bs, tm'')
  end.

(** The states a [TypeManager] object can be in. *)
Definition reachable (sizeof_ptr : Z) (tm : TypeManager) : Prop :=
  exists cs bs, run sizeof_ptr cs (TypeManager_new sizeof_ptr) = Ok (bs, tm).

(** The width [AddType] and [getSizeof] read for a kind. *)
Definition natural_width (tm : TypeManager) (kind : Primitive) : Z :=
  (map_index kind (primitivesizes tm)).1.

(** The state after the [operator[]] read of [AddType]. *)
Definition indexed (tm : TypeManager) (kind : Primitive) : TypeManager :=
  set_primitivesizes (map_index kind (primitivesizes tm)).2 tm.

(** ** Cyclic type graphs *)

(** [b] is the type of the member that the layout of the aggregate [a]
    resolves first: the last member of a struct, the first of a union. *)
Definition resolves_through (tm : TypeManager) (a b : string) : Prop :=
  primitives tm !! a = None /\ types tm !! a = None /\
  exists s m, structs tm !! a = Some s /\
    (if isunion s then head (members s) else last (members s)) = Some m /\
    m_type m = b.

(** [P] is a set of aggregates that resolve through each other only. *)
Definition cycle_closed (tm : TypeManager) (P : string -> Prop) : Prop :=
  forall a, P a -> exists b, resolves_through tm a b /\ P b.

(** Every aggregate has a positive alignment, as those made by
    [AddStruct] and [AddUnion] from a name have. *)
Definition aligned (tm : TypeManager) : Prop :=
  forall n s, structs tm !! n = Some s -> 0 < alignment s.

(** [r2] is [r1], unless [r1] ran out of fuel. *)
Definition fuel_le {A} (r1 r2 : outcome A) : Prop :=
  r1 = OutOfFuel \/ r1 = r2.

(** A struct whose first member is of the struct's own type and whose
    last member is an [int32]. *)
Definition list_node : list call :=
  [ CAddStruct "node" 0;
    CAddMember "node" "next" "node" 0 0;
    CAddMember "node" "value" "int32" 8 0 ].

(** The state a client program leaves behind, when it runs through. *)
Definition state_after (sizeof_ptr : Z) (cs : list call) : TypeManager :=
  match run sizeof_ptr cs (TypeManager_new sizeof_ptr) with
  | Ok (_, tm) => tm
  | _ => TypeManager_new sizeof_ptr
  end.

(** A struct whose only member is of the struct's own type. *)
Definition self_struct : list call :=
  [ CAddStruct "s" 0; CAddMember "s" "self" "s" auto_offset 0 ].

(** ** The size of a union, in the words of the specification *)

(** What a member contributes: its resolved size times its element
    count. *)
Definition member_extent (rec : string -> outcome Z) (m : Member)
    : outcome Z :=
  r ← rec (m_type m); Ok (Int.mul r (arr_count m)).

(** The largest of the contributions (and at least 0). *)
Definition max_extent (exts : list Z) : Z := foldr Z.max 0 exts.

(** The next multiple of [align] at or above [size]. *)
Definition round_up (size align : Z) : Z :=
  align * ((size + align - 1) / align).

(** Union size = max over members of the contributions, rounded up to
    the alignment; 0 when a member contributes 0. *)
Definition union_size (exts : list Z) (align : Z) : outcome (Z * option Z) :=
  if existsb (fun e => e =? 0) exts then Ok (0, Some 0)
  else align_up (max_extent exts) align.

(** A union of an [int8] and an [int32], in both declaration orders. *)
Definition union_ab (align : Z) : list call :=
  [ CAddUnion "u" align;
    CAddMember "u" "a" "int8" auto_offset 0;
    CAddMember "u" "b" "int32" auto_offset 0 ].

Definition union_ba (align : Z) : list call :=
  [ CAddUnion "u" align;
    CAddMember "u" "b" "int32" auto_offset 0;
    CAddMember "u" "a" "int8" auto_offset 0 ].

(** ** Automatic offsets, in the words of the specification *)

(** [tm'] is [tm] with a member appended to [parent] at the offset the
    automatic policy gives it: the size of the aggregate before the
    insertion, pulled back by the trailing padding that computation
    reports when the size of the member's type is at most that padding. *)
Definition auto_placed (tm : TypeManager) (parent name type : string)
    (arrsize : Z) (tm' : TypeManager) : Prop :=
  exists s size pad typesize off,
    structs tm !! parent = Some s /\
    getSizeof depth_fuel tm parent 0 = Ok (size, Some pad) /\
    Sizeof tm type = Ok typesize /\
    (pad <> 0 /\ typesize <= pad -> off = Int.sub size pad) /\
    (pad = 0 \/ pad < typesize -> off = size) /\
    tm' = push_member tm parent s (mkMember name type off arrsize).

(** A struct of alignment 8 with an [int32] and an [int64]. *)
Definition struct_ab : list call :=
  [ CAddStruct "s" 8;
    CAddMember "s" "a" "int32" auto_offset 0;
    CAddMember "s" "b" "int64" auto_offset 0 ].

(** A struct of alignment 8 with one [int32]. *)
Definition struct_a : list call :=
  [ CAddStruct "s" 8; CAddMember "s" "a" "int32" auto_offset 0 ].

(** ** The primitive catalog as an invariant *)

(** [tm'] has the spellings of [tm], reads the same width for every
    kind, and has an entry in the width table wherever [tm] has one. *)
Definition same_catalog (tm tm' : TypeManager) : Prop :=
  primitives tm' = primitives tm /\
  forall kind,
    natural_width tm' kind = natural_width tm kind /\
    (is_Some (primitivesizes tm !! kind) ->
     is_Some (primitivesizes tm' !! kind)).

(** The natural width of a kind, as its name states it; the native
    kinds and the pointer have the width of a pointer. *)
Definition kind_bits (sizeof_ptr : Z) (kind : Primitive) : Z :=
  match kind with
  | Int8 | Uint8 => 8
  | Int16 | Uint16 => 16
  | Int32 | Uint32 => 32
  | Int64 | Uint64 => 64
  | Dsint | Duint | Pointer => sizeof_ptr * 8
  | Float => 32
  | Double => 64
  end.

(** The width table after construction, kind by kind: [Uint16] is
    missing because its spellings are registered under [Int16]. *)
Definition width_table (sizeof_ptr : Z) (kind : Primitive) : option Z :=
  match kind with
  | Int8 | Uint8 => Some 8
  | Int16 => Some 16
  | Uint16 => None
  | Int32 | Uint32 => Some 32
  | Int64 | Uint64 => Some 64
  | Dsint | Duint | Pointer => Some (sizeof_ptr * 8)
  | Float => Some 32
  | Double => Some 64
  end.

(** A struct [s] with a member, then a struct [t]: [t] is current. *)
Definition two_structs : list call := struct_a ++ [ CAddStruct "t" 0 ].

(** ** Rejected members *)

(** The conditions under which [AddMember] gives up. *)
Definition AddMember_rejects (tm : TypeManager) (parent name type : string)
    (offset arrsize : Z) : Prop :=
  structs tm !! parent = None \/
  arrsize < 0 \/
  isDefined tm type = false \/
  (exists s m, structs tm !! parent = Some s /\ m ∈ members s /\
               m_name m = name) \/
  (offset < 0 /\
   exists s stored, structs tm !! parent = Some s /\ members s <> [] /\
                    getSizeof depth_fuel tm parent 0 = Ok (0, stored)).

(** ** What a call does to the registry *)

(** [s] with one more member at the end. *)
Definition with_member (s : StructUnion) (m : Member) : StructUnion :=
  mkStructUnion (isunion s) (alignment s) (su_name s) (members s ++ [m]).

(** The change a call that returned [b] made to the types and the
    aggregates: none, one new type under a name that was not defined,
    one new aggregate under such a name, or one more member at the end
    of an aggregate. *)
Inductive effect (tm tm' : TypeManager) : bool -> Prop :=
  | effect_none :
      types tm' = types tm -> structs tm' = structs tm ->
      effect tm tm' false
  | effect_type t :
      isDefined tm (t_name t) = false ->
      types tm' = <[t_name t := t]> (types tm) ->
      structs tm' = structs tm ->
      effect tm tm' true
  | effect_aggregate s :
      isDefined tm (su_name s) = false ->
      types tm' = types tm ->
      structs tm' = <[su_name s := s]> (structs tm) ->
      effect tm tm' true
  | effect_member parent s m :
      structs tm !! parent = Some s ->
      types tm' = types tm ->
      structs tm' = <[parent := with_member s m]> (structs tm) ->
      effect tm tm' true.

(** No name is defined twice: the spellings, the type names and the
    aggregate names are pairwise disjoint. *)
Definition names_disjoint (tm : TypeManager) : Prop :=
  forall n,
    (is_Some (primitives tm !! n) ->
     types tm !! n = None /\ structs tm !! n = None) /\
    (is_Some (types tm !! n) -> structs tm !! n = None).

(** Every record is stored under its own name. *)
Definition keyed_by_name (tm : TypeManager) : Prop :=
  (forall n t, types tm !! n = Some t -> t_name t = n) /\
  (forall n s, structs tm !! n = Some s -> su_name s = n).

(** [tm'] keeps every definition of [tm]: the types as they are, the
    aggregates with their kind, alignment and name, and with their
    members as the first members. *)
Definition extends (tm tm' : TypeManager) : Prop :=
  primitives tm' = primitives tm /\
  (forall n t, types tm !! n = Some t -> types tm' !! n = Some t) /\
  (forall n s, structs tm !! n = Some s ->
     exists s', structs tm' !! n = Some s' /\
       isunion s' = isunion s /\ alignment s' = alignment s /\
       su_name s' = su_name s /\ members s `prefix_of` members s').

(** ** Clients that give every aggregate a positive alignment *)

(** The calls that cannot create an aggregate of alignment 0 or less:
    all but the record overloads of [AddStruct] and [AddUnion] with
    such an alignment in the record. *)
Definition call_aligned (c : call) : Prop :=
  match c with
  | CAddStruct_s s | CAddUnion_u s => 0 < alignment s
  | _ => True
  end.

(** ** Reordering the members of an aggregate *)

(** [tm] with the members of the aggregate [s], stored under [name],
    replaced by [ms]. *)
Definition with_members (tm : TypeManager) (name : string) (s : StructUnion)
    (ms : list Member) : TypeManager :=
  set_structs
    (<[name := mkStructUnion (isunion s) (alignment s) (su_name s) ms]>
       (structs tm)) tm.

(** ** Spellings *)

(** Whether a comma occurs in a string. *)
Fixpoint has_comma (a : string) : bool :=
  match a with
  | EmptyString => false
  | String ch a' => Ascii.eqb ch ","%char || has_comma a'
  end.

(** A spelling the lambda [p] can register: not empty, no comma. *)
Definition clean_spelling (a : string) : Prop :=
  a <> "" /\ has_comma a = false.

(** ** Calls that define a name *)

(** The call [c] asks for a type or an aggregate named [n]. *)
Definition defines (c : call) (n : string) : Prop :=
  match c with
  | CAddType_str name _ | CAddType name _ _ _
  | CAddStruct name _ | CAddUnion name _ => name = n
  | CAddType_t t => t_name t = n
  | CAddStruct_s s | CAddUnion_u s => su_name s = n
  | _ => False
  end.

(** ** Nesting *)

(** The layout of [t] passes through [k] aggregates in a row, each one
    through the member it resolves first (see [resolves_through]). *)
Fixpoint nested (tm : TypeManager) (k : nat) (t : string) : bool :=
  match k with
  | O => true
  | S k' =>
      match primitives tm !! t, types tm !! t, structs tm !! t with
      | None, None, Some s =>
          match (if isunion s then head (members s) else last (members s)) with
          | Some m => nested tm k' (m_type m)
          | None => false
          end
      | _, _, _ => false
      end
  end.

(** The name of the struct at level [k] of a tower: [k + 1] letters. *)
Fixpoint level (k : nat) : string :=
  match k with
  | O => "L"
  | S k' => String "L" (level k')
  end.

(** Level 0 holds an [int8]; level [k + 1] holds the struct of level
    [k]. *)
Fixpoint tower (k : nat) : list call :=
  match k with
  | O => [ CAddStruct (level 0) 1;
           CAddMember (level 0) "x" "int8" auto_offset 0 ]
  | S k' =>
      tower k' ++
      [ CAddStruct (level k) 1;
        CAddMember (level k) "x" (level k') auto_offset 0 ]
  end.

(** * Properties *)

(** ** Outcomes *)

Lemma fuel_le_refl {A} (r : outcome A) : fuel_le r r.
Proof. now right. Qed.

Lemma fuel_le_bind {A B} (f g : A -> outcome B) (r1 r2 : outcome A) :
  fuel_le r1 r2 -> (forall a, fuel_le (f a) (g a)) ->
  fuel_le (r1 ≫= f) (r2 ≫= g).
Proof.
  intros [-> | ->] Hfg; [now left |].
  destruct r2 as [a | |]; simpl; [apply Hfg | now right | now right].
Qed.

Lemma bind_not_out {A B} (f : A -> outcome B) (r : outcome A) :
  r <> OutOfFuel -> (forall a, f a <> OutOfFuel) -> r ≫= f <> OutOfFuel.
Proof. destruct r; simpl; auto. Qed.

Lemma int_rem_not_out a b : int_rem a b <> OutOfFuel.
Proof.
  unfold int_rem. destruct (b =? 0); [discriminate |].
  destruct ((a =? Int.min_int) && (b =? -1)); discriminate.
Qed.

Lemma align_up_not_out size align : align_up size align <> OutOfFuel.
Proof.
  unfold align_up. apply bind_not_out; [apply int_rem_not_out |].
  intros m. destruct (m =? 0); discriminate.
Qed.

(** ** The loops of [getSizeof] under a change of the recursive call *)

Section Loops.
Variables rec1 rec2 : string -> outcome Z.

Lemma union_loop_fuel_le ms size :
  (forall t, fuel_le (rec1 t) (rec2 t)) ->
  fuel_le (union_loop rec1 ms size) (union_loop rec2 ms size).
Proof.
  intros Hrec. revert size.
  induction ms as [| m ms IH]; intros size; simpl; [apply fuel_le_refl |].
  apply fuel_le_bind; [apply Hrec |].
  intros r. destruct (Int.mul r (arr_count m) =? 0);
    [apply fuel_le_refl | apply IH].
Qed.

Lemma struct_last_fuel_le ms :
  (forall t, fuel_le (rec1 t) (rec2 t)) ->
  fuel_le (struct_last rec1 ms) (struct_last rec2 ms).
Proof.
  intros Hrec. unfold struct_last.
  destruct (last ms) as [m |]; [| apply fuel_le_refl].
  apply fuel_le_bind; [apply Hrec | intros r; apply fuel_le_refl].
Qed.

Lemma union_loop_not_out ms size :
  (forall t, rec1 t <> OutOfFuel) -> union_loop rec1 ms size <> OutOfFuel.
Proof.
  intros Hrec. revert size.
  induction ms as [| m ms IH]; intros size; simpl; [discriminate |].
  apply bind_not_out; [apply Hrec |].
  intros r. destruct (Int.mul r (arr_count m) =? 0);
    [discriminate | apply IH].
Qed.

Lemma struct_last_not_out ms :
  (forall t, rec1 t <> OutOfFuel) -> struct_last rec1 ms <> OutOfFuel.
Proof.
  intros Hrec. unfold struct_last.
  destruct (last ms) as [m |]; [| discriminate].
  apply bind_not_out; [apply Hrec |].
  intros r. destruct (Int.mul r (arr_count m) =? 0); discriminate.
Qed.
End Loops.

(** ** Fuel: the depth cap bounds the recursion *)

(** One more unit of fuel never changes a result that was reached. *)
Lemma getSizeof_fuel_S fuel tm type depth :
  fuel_le (getSizeof fuel tm type depth) (getSizeof (S fuel) tm type depth).
Proof.
  revert type depth.
  induction fuel as [| fuel IH]; intros type depth; [now left |].
  cbn [getSizeof].
  destruct (depth >=? 100); [apply fuel_le_refl |].
  destruct (primitives tm !! type); [apply fuel_le_refl |].
  destruct (types tm !! type); [apply fuel_le_refl |].
  destruct (structs tm !! type) as [s |]; [| apply fuel_le_refl].
  destruct (length (members s) =? 0)%nat; [apply fuel_le_refl |].
  apply fuel_le_bind; [| intros; apply fuel_le_refl].
  assert (Hrec : forall t,
    fuel_le (getSizeof fuel tm t (depth + 1) ≫= (fun r => Ok r.1))
            (getSizeof (S fuel) tm t (depth + 1) ≫= (fun r => Ok r.1))).
  { intros t. apply fuel_le_bind; [apply IH | intros; apply fuel_le_refl]. }
  destruct (isunion s);
    [apply union_loop_fuel_le | apply struct_last_fuel_le]; exact Hrec.
Qed.

Lemma getSizeof_fuel_mono fuel fuel' tm type depth :
  (fuel <= fuel')%nat ->
  fuel_le (getSizeof fuel tm type depth) (getSizeof fuel' tm type depth).
Proof.
  induction 1 as [| fuel' _ IH]; [apply fuel_le_refl |].
  destruct IH as [-> | ->]; [now left | apply getSizeof_fuel_S].
Qed.

(** A call at [depth] needs one unit of fuel for each of the depths
    [depth], ..., 100. *)
Lemma getSizeof_fuel_enough fuel tm type depth :
  Z.max 0 (100 - depth) < Z.of_nat fuel ->
  getSizeof fuel tm type depth <> OutOfFuel.
Proof.
  revert type depth.
  induction fuel as [| fuel IH]; intros type depth Hfuel.
  - simpl in Hfuel. lia.
  - cbn [getSizeof].
    destruct (Z.geb_spec depth 100) as [Hd | Hd]; [discriminate |].
    destruct (primitives tm !! type); [discriminate |].
    destruct (types tm !! type); [discriminate |].
    destruct (structs tm !! type) as [s |]; [| discriminate].
    destruct (length (members s) =? 0)%nat; [discriminate |].
    assert (Hrec : forall t,
      getSizeof fuel tm t (depth + 1) ≫= (fun r => Ok r.1) <> OutOfFuel).
    { intros t. apply bind_not_out; [apply IH; lia | discriminate]. }
    apply bind_not_out.
    + destruct (isunion s);
        [apply union_loop_not_out | apply struct_last_not_out]; exact Hrec.
    + intros [size |]; [apply align_up_not_out | discriminate].
Qed.

Lemma getSizeof_fuel_stable fuel fuel' tm type depth :
  Z.max 0 (100 - depth) < Z.of_nat fuel -> (fuel <= fuel')%nat ->
  getSizeof fuel' tm type depth = getSizeof fuel tm type depth.
Proof.
  intros Hfuel Hle.
  destruct (getSizeof_fuel_mono fuel fuel' tm type depth Hle) as [Hout | Heq];
    [| now symmetry].
  now apply getSizeof_fuel_enough in Hout.
Qed.

(** ** Names that resolve to nothing *)

Lemma getSizeof_unknown fuel tm name depth :
  primitives tm !! name = None -> types tm !! name = None ->
  (forall s, structs tm !! name = Some s -> members s = []) ->
  depth < 100 ->
  getSizeof (S fuel) tm name depth = Ok (0, Some 0).
Proof.
  intros HP HT HS Hd. cbn [getSizeof].
  destruct (Z.geb_spec depth 100); [lia |].
  rewrite HP, HT.
  destruct (structs tm !! name) as [s |]; [| reflexivity].
  now rewrite (HS s eq_refl).
Qed.

(** C8. [Sizeof] returns 0 for every name that is not a primitive
    spelling, not a registered type and not a registered aggregate with
    at least one member: an undefined name, or an aggregate without
    members. *)
Theorem Sizeof_unknown_is_zero (tm : TypeManager) (name : string) :
  primitives tm !! name = None -> types tm !! name = None ->
  (forall s, structs tm !! name = Some s -> members s = []) ->
  Sizeof tm name = Ok 0.
Proof.
  intros HP HT HS. unfold Sizeof, depth_fuel.
  now rewrite getSizeof_unknown by (auto; lia).
Qed.

Lemma Sizeof_unknown_is_zero_witness :
  Sizeof (TypeManager_new 8) "nosuch" = Ok 0 /\
  Sizeof (AddStruct 8 (TypeManager_new 8) "empty" 0).2 "empty" = Ok 0.
Proof.
  split.
  - apply Sizeof_unknown_is_zero; [reflexivity | reflexivity |].
    intros s Hs. vm_compute in Hs. discriminate.
  - apply Sizeof_unknown_is_zero; [reflexivity | reflexivity |].
    intros s Hs. vm_compute in Hs. injection Hs as <-. reflexivity.
Defined.

(** ** The depth cap *)

Lemma getSizeof_at_cap fuel tm type depth :
  100 <= depth -> getSizeof (S fuel) tm type depth = Ok (0, None).
Proof.
  intros Hd. cbn [getSizeof]. destruct (Z.geb_spec depth 100); [easy | lia].
Qed.

Lemma int_rem_aligned size align :
  0 < align -> int_rem size align = Ok (Z.rem size align).
Proof.
  intros Ha. unfold int_rem.
  destruct (Z.eqb_spec align 0); [lia |].
  destruct (Z.eqb_spec align (-1)); [lia |].
  now rewrite andb_false_r.
Qed.

Lemma align_up_aligned size align :
  0 < align -> exists r, align_up size align = Ok r.
Proof.
  intros Ha. unfold align_up. rewrite int_rem_aligned by easy. simpl.
  destruct (Z.rem size align =? 0); eauto.
Qed.

Lemma union_loop_returns rec ms size :
  (forall t, exists r, rec t = Ok r) -> exists r, union_loop rec ms size = Ok r.
Proof.
  intros Hrec. revert size.
  induction ms as [| m ms IH]; intros size; simpl; [eauto |].
  destruct (Hrec (m_type m)) as [r ->]. simpl.
  destruct (Int.mul r (arr_count m) =? 0); eauto.
Qed.

Lemma struct_last_returns rec ms :
  (forall t, exists r, rec t = Ok r) -> ms <> [] ->
  exists r, struct_last rec ms = Ok r.
Proof.
  intros Hrec Hms. unfold struct_last.
  destruct (last ms) as [m |] eqn:Hlast.
  - destruct (Hrec (m_type m)) as [r ->]. simpl.
    destruct (Int.mul r (arr_count m) =? 0); eauto.
  - apply last_None in Hlast. contradiction.
Qed.

(** With positive alignments no [%] of [getSizeof] is undefined. *)
Lemma getSizeof_returns fuel tm type depth :
  aligned tm -> Z.max 0 (100 - depth) < Z.of_nat fuel ->
  exists r, getSizeof fuel tm type depth = Ok r.
Proof.
  intros Hal. revert type depth.
  induction fuel as [| fuel IH]; intros type depth Hfuel;
    [simpl in Hfuel; lia |].
  cbn [getSizeof].
  destruct (Z.geb_spec depth 100) as [Hd | Hd]; [eauto |].
  destruct (primitives tm !! type); [eauto |].
  destruct (types tm !! type); [eauto |].
  destruct (structs tm !! type) as [s |] eqn:Hs; [| eauto].
  destruct (length (members s) =? 0)%nat eqn:Hlen; [eauto |].
  assert (Hrec : forall t, exists r,
    getSizeof fuel tm t (depth + 1) ≫= (fun r => Ok r.1) = Ok r).
  { intros t. destruct (IH t (depth + 1)) as [r ->]; [lia | simpl; eauto]. }
  assert (Hms : members s <> []).
  { intros E. rewrite E in Hlen. discriminate. }
  assert (Hsz : exists r,
    (if isunion s
     then union_loop (fun t => getSizeof fuel tm t (depth + 1)
                               ≫= (fun r => Ok r.1)) (members s) 0
     else struct_last (fun t => getSizeof fuel tm t (depth + 1)
                                ≫= (fun r => Ok r.1)) (members s)) = Ok r).
  { destruct (isunion s);
      [apply union_loop_returns | apply struct_last_returns]; auto. }
  destruct Hsz as [[size |] ->]; simpl; [| eauto].
  apply align_up_aligned. eapply Hal, Hs.
Qed.

(** Along a cycle every call returns 0, at whatever depth it starts. *)
Lemma getSizeof_cycle fuel tm P type depth :
  cycle_closed tm P -> P type -> Z.max 0 (100 - depth) < Z.of_nat fuel ->
  exists stored, getSizeof fuel tm type depth = Ok (0, stored).
Proof.
  intros Hcyc. revert type depth.
  induction fuel as [| fuel IH]; intros type depth HP Hfuel;
    [simpl in Hfuel; lia |].
  cbn [getSizeof].
  destruct (Z.geb_spec depth 100) as [Hd | Hd]; [eauto |].
  destruct (Hcyc type HP) as (b & (HnP & HnT & s & m & Hs & Hm & Hb) & HPb).
  rewrite HnP, HnT, Hs.
  destruct (IH b (depth + 1) HPb) as [st Hrec]; [lia |].
  destruct (members s) as [| m0 ms] eqn:Hms;
    [destruct (isunion s); discriminate |].
  change (length (m0 :: ms) =? 0)%nat with false. cbv iota.
  destruct (isunion s).
  - simpl in Hm. injection Hm as ->.
    cbn [union_loop]. rewrite Hb, Hrec. simpl. eauto.
  - unfold struct_last. rewrite Hm, Hb, Hrec. simpl. eauto.
Qed.

(** C4 (amended).  Every [getSizeof] call ends within the depth cap: a
    call at [depth] needs no more than one nested call for each of the
    depths up to 100, so with that much fuel it never runs out, and more
    fuel does not change what it returns.  It ends with a size or, when
    an aggregate has a zero alignment, in an undefined [%]; with positive
    alignments it always returns a size.  A call at depth 100 or more
    returns 0 and stores no padding.  For an aggregate on a cycle of the
    members the layout resolves (the last member of a struct, the first
    of a union), the call returns 0, and so does [Sizeof]. *)
Theorem getSizeof_depth_cap (tm : TypeManager) (type : string) (depth : Z)
    (fuel : nat) :
  Z.max 0 (100 - depth) < Z.of_nat fuel ->
  ((exists r, getSizeof fuel tm type depth = Ok r) \/
   getSizeof fuel tm type depth = Crash) /\
  (forall fuel', (fuel <= fuel')%nat ->
     getSizeof fuel' tm type depth = getSizeof fuel tm type depth) /\
  (aligned tm -> exists r, getSizeof fuel tm type depth = Ok r) /\
  (100 <= depth -> getSizeof fuel tm type depth = Ok (0, None)) /\
  (forall P, cycle_closed tm P -> P type ->
     (exists stored, getSizeof fuel tm type depth = Ok (0, stored)) /\
     Sizeof tm type = Ok 0) /\
  ((exists size, Sizeof tm type = Ok size) \/ Sizeof tm type = Crash).
Proof.
  intros Hfuel.
  assert (Hsz : (exists size, Sizeof tm type = Ok size) \/
                Sizeof tm type = Crash).
  { unfold Sizeof.
    pose proof (getSizeof_fuel_enough depth_fuel tm type 0) as Hne.
    destruct (getSizeof depth_fuel tm type 0) as [r | |];
      cbn [mbind outcome_bind]; [eauto | auto |].
    exfalso. apply Hne; [unfold depth_fuel; lia | reflexivity]. }
  split.
  { pose proof (getSizeof_fuel_enough fuel tm type depth Hfuel) as Hne.
    destruct (getSizeof fuel tm type depth); [eauto | auto | contradiction]. }
  split; [intros fuel' Hle; now apply getSizeof_fuel_stable |].
  split; [intros Hal; now apply getSizeof_returns |].
  split.
  { intros Hd. destruct fuel; [simpl in Hfuel; lia |].
    now apply getSizeof_at_cap. }
  split; [| exact Hsz].
  intros P Hcyc HP. split; [now apply (getSizeof_cycle fuel tm P) |].
  unfold Sizeof.
  destruct (getSizeof_cycle depth_fuel tm P type 0) as [st ->];
    [assumption | assumption | unfold depth_fuel; lia | reflexivity].
Qed.

Lemma getSizeof_depth_cap_witness :
  Z.max 0 (100 - 0) < Z.of_nat 101 /\
  cycle_closed (state_after 8 self_struct) (fun t => t = "s") /\
  Sizeof (state_after 8 self_struct) "s" = Ok 0.
Proof.
  assert (Hfuel : Z.max 0 (100 - 0) < Z.of_nat 101) by (vm_compute; reflexivity).
  assert (Hcyc : cycle_closed (state_after 8 self_struct) (fun t => t = "s")).
  { intros a ->. exists "s". split; [| reflexivity].
    split; [reflexivity |]. split; [reflexivity |].
    exists (mkStructUnion false 8 "s" [mkMember "self" "s" 0 0]),
           (mkMember "self" "s" 0 0).
    split; [vm_compute; reflexivity |]. split; reflexivity. }
  split; [exact Hfuel |]. split; [exact Hcyc |].
  destruct (getSizeof_depth_cap (state_after 8 self_struct) "s" 0 101 Hfuel)
    as (_ & _ & _ & _ & H & _).
  exact (proj2 (H (fun t => t = "s") Hcyc eq_refl)).
Defined.

(** The claim C4 fails where the member of the struct's own type is not
    the last one: [list_node] builds such a struct through the public
    calls, and its size is 16. *)
Lemma list_node_has_a_size :
  exists tm s m,
    run 8 list_node (TypeManager_new 8) = Ok ([true; true; true], tm) /\
    structs tm !! "node" = Some s /\ m ∈ members s /\ m_type m = "node" /\
    Sizeof tm "node" = Ok 16.
Proof.
  exists (state_after 8 list_node),
    (mkStructUnion false 8 "node"
       [mkMember "next" "node" 0 0; mkMember "value" "int32" 8 0]),
    (mkMember "next" "node" 0 0).
  split; [vm_compute; reflexivity |].
  split; [vm_compute; reflexivity |].
  split; [apply list_elem_of_here |].
  split; [reflexivity | vm_compute; reflexivity].
Qed.

(** ** Unions *)

Lemma wrap_in_range z : Int.in_range z -> Int.wrap z = z.
Proof.
  unfold Int.in_range, Int.wrap, Int.min_int, Int.max_int. intros Hz.
  rewrite Z.mod_small; lia.
Qed.

(** Short of overflow the [int] subtraction is the subtraction. *)
Lemma sub_in_range a b : Int.in_range (a - b) -> Int.sub a b = a - b.
Proof. apply wrap_in_range. Qed.

(** On a positive alignment, and short of overflow, the rounding step
    of [getSizeof] yields the next multiple and the distance to it. *)
Lemma align_up_round_up size align :
  0 < align -> 0 <= size -> round_up size align <= Int.max_int ->
  align_up size align
  = Ok (round_up size align, Some (round_up size align - size)).
Proof.
  intros Ha Hs Hmax. unfold align_up. rewrite int_rem_aligned by easy.
  rewrite Z.rem_mod_nonneg by lia. simpl.
  pose proof (Z.div_mod size align ltac:(lia)) as Hdm.
  pose proof (Z.mod_pos_bound size align Ha) as Hm.
  pose proof (Z.div_pos size align Hs Ha) as Hq.
  set (q := size / align) in *. set (m := size mod align) in *.
  assert (Hru : round_up size align = if m =? 0 then size else size + (align - m)).
  { unfold round_up. destruct (Z.eqb_spec m 0) as [E | E].
    - replace (size + align - 1) with (q * align + (align - 1)) by lia.
      rewrite Z.div_add_l, Z.div_small by lia. lia.
    - replace (size + align - 1) with ((q + 1) * align + (m - 1)) by lia.
      rewrite Z.div_add_l, Z.div_small by lia. lia. }
  rewrite Hru in *.
  destruct (Z.eqb_spec m 0) as [E | E].
  - do 3 f_equal. lia.
  - assert (Hal : align <= Int.max_int) by nia.
    unfold Int.add, Int.sub.
    rewrite (wrap_in_range (align - m))
      by (unfold Int.in_range, Int.min_int, Int.max_int in *; lia).
    rewrite wrap_in_range
      by (unfold Int.in_range, Int.min_int, Int.max_int in *; lia).
    do 3 f_equal. lia.
Qed.

Lemma max_extent_nonneg exts : 0 <= max_extent exts.
Proof. induction exts; unfold max_extent in *; simpl; lia. Qed.

Lemma mapM_Ok_nil {A B} (f : A -> outcome B) (ys : list B) :
  mapM f [] = Ok ys -> ys = [].
Proof. intros H. now injection H. Qed.

Lemma mapM_Ok_cons {A B} (f : A -> outcome B) x xs (ys : list B) :
  mapM f (x :: xs) = Ok ys ->
  exists y ys', f x = Ok y /\ mapM f xs = Ok ys' /\ ys = y :: ys'.
Proof.
  cbn [mapM]. destruct (f x) as [y | |]; try discriminate.
  destruct (mapM f xs) as [ys' | |]; try discriminate.
  intros H. injection H as <-. eauto.
Qed.

Lemma bind_Ok {A B} (f : A -> outcome B) (r : outcome A) (b : B) :
  r ≫= f = Ok b -> exists a, r = Ok a /\ f a = Ok b.
Proof. destruct r; try discriminate. eauto. Qed.

(** The union loop computes the maximum of the contributions, or leaves
    at the first contribution that is 0. *)
Lemma union_loop_max rec ms exts size :
  0 <= size ->
  mapM (member_extent rec) ms = Ok exts ->
  union_loop rec ms size
  = Ok (if existsb (fun e => e =? 0) exts then None
        else Some (Z.max size (max_extent exts))).
Proof.
  revert exts size.
  induction ms as [| m ms IH]; intros exts size Hsize Hexts.
  - apply mapM_Ok_nil in Hexts as ->. simpl. do 2 f_equal.
    unfold max_extent. simpl. lia.
  - apply mapM_Ok_cons in Hexts as (e & exts' & He & Hrest & ->).
    apply bind_Ok in He as (r & Hr & He). injection He as <-.
    cbn [union_loop existsb]. rewrite Hr. simpl.
    destruct (Z.eqb_spec (Int.mul r (arr_count m)) 0) as [E | E];
      [reflexivity |].
    rewrite (IH exts') by
      (try assumption;
       destruct (Z.gtb_spec (Int.mul r (arr_count m)) size); lia).
    simpl. destruct (existsb (fun e => e =? 0) exts'); [reflexivity |].
    do 2 f_equal. unfold max_extent. simpl. fold (max_extent exts').
    destruct (Z.gtb_spec (Int.mul r (arr_count m)) size); lia.
Qed.

Lemma getSizeof_union fuel tm name depth s exts :
  primitives tm !! name = None -> types tm !! name = None ->
  structs tm !! name = Some s -> isunion s = true -> members s <> [] ->
  depth < 100 ->
  mapM (member_extent
          (fun t => r ← getSizeof fuel tm t (depth + 1); Ok r.1))
       (members s) = Ok exts ->
  getSizeof (S fuel) tm name depth = union_size exts (alignment s).
Proof.
  intros HP HT HS Hu Hms Hd Hexts. cbn [getSizeof].
  destruct (Z.geb_spec depth 100); [lia |].
  rewrite HP, HT, HS, Hu.
  destruct (members s) as [| m0 ms] eqn:E; [contradiction |].
  change (length (m0 :: ms) =? 0)%nat with false. cbv iota.
  rewrite (union_loop_max _ _ exts) by (try assumption; lia).
  unfold union_size. simpl.
  destruct (existsb (fun e => e =? 0) exts); [reflexivity |].
  now rewrite Z.max_r by apply max_extent_nonneg.
Qed.

(** C1 (amended).  When every member of a union resolves, the size of
    the union is 0 if some member contributes 0 and otherwise the
    largest contribution (resolved size times the element count, the
    count being 1 for a scalar) rounded up to the union's alignment: on
    a positive alignment and short of overflow, the next multiple of the
    alignment.  For the union of an [int8] and an [int32] that is 4 when
    the alignment is 1, 2 or 4, in either declaration order. *)
Theorem union_size_is_rounded_max :
  (forall fuel tm name depth s exts,
     primitives tm !! name = None -> types tm !! name = None ->
     structs tm !! name = Some s -> isunion s = true -> members s <> [] ->
     depth < 100 ->
     mapM (member_extent
             (fun t => r ← getSizeof fuel tm t (depth + 1); Ok r.1))
          (members s) = Ok exts ->
     getSizeof (S fuel) tm name depth = union_size exts (alignment s) /\
     (existsb (fun e => e =? 0) exts = false -> 0 < alignment s ->
      round_up (max_extent exts) (alignment s) <= Int.max_int ->
      getSizeof (S fuel) tm name depth
      = Ok (round_up (max_extent exts) (alignment s),
            Some (round_up (max_extent exts) (alignment s)
                  - max_extent exts)))) /\
  (forall sizeof_ptr align, In align [1; 2; 4] ->
     run sizeof_ptr (union_ab align) (TypeManager_new sizeof_ptr)
     = Ok ([true; true; true], state_after sizeof_ptr (union_ab align)) /\
     run sizeof_ptr (union_ba align) (TypeManager_new sizeof_ptr)
     = Ok ([true; true; true], state_after sizeof_ptr (union_ba align)) /\
     Sizeof (state_after sizeof_ptr (union_ab align)) "u" = Ok 4 /\
     Sizeof (state_after sizeof_ptr (union_ba align)) "u" = Ok 4).
Proof.
  split.
  - intros fuel tm name depth s exts HP HT HS Hu Hms Hd Hexts.
    pose proof (getSizeof_union fuel tm name depth s exts
                  HP HT HS Hu Hms Hd Hexts) as Heq.
    split; [exact Heq |].
    intros Hnz Hal Hmax. rewrite Heq. unfold union_size. rewrite Hnz.
    apply align_up_round_up; [assumption | apply max_extent_nonneg | assumption].
  - intros sizeof_ptr align Hin.
    destruct Hin as [<- | [<- | [<- | []]]];
      repeat split; vm_compute; reflexivity.
Qed.

Lemma union_size_is_rounded_max_witness :
  getSizeof 101 (state_after 8 (union_ab 8)) "u" 0 = Ok (8, Some 4) /\
  Sizeof (state_after 8 (union_ab 4)) "u" = Ok 4 /\
  Sizeof (state_after 8 (union_ba 4)) "u" = Ok 4.
Proof.
  destruct union_size_is_rounded_max as [Hgen Hab].
  split.
  - destruct (Hgen 100%nat (state_after 8 (union_ab 8)) "u" 0
                (mkStructUnion true 8 "u"
                   [mkMember "a" "int8" 0 0; mkMember "b" "int32" 1 0])
                [1; 4]) as [_ Hround];
      [reflexivity | reflexivity | vm_compute; reflexivity | reflexivity
      | discriminate | lia | vm_compute; reflexivity |].
    apply Hround; [reflexivity | simpl; lia | vm_compute; discriminate].
  - destruct (Hab 8 4) as (_ & _ & H1 & H2); [simpl; tauto |].
    split; assumption.
Defined.

(** The claim C1 fails on an alignment above 4: the default alignment
    of a target with 8-byte pointers, or a requested alignment of 8 on
    any target.  The same union has size 8 there, in either order. *)
Lemma union_of_int8_int32_has_size_8 :
  run 8 (union_ab 0) (TypeManager_new 8)
  = Ok ([true; true; true], state_after 8 (union_ab 0)) /\
  Sizeof (state_after 8 (union_ab 0)) "u" = Ok 8 /\
  Sizeof (state_after 8 (union_ba 0)) "u" = Ok 8 /\
  run 4 (union_ab 8) (TypeManager_new 4)
  = Ok ([true; true; true], state_after 4 (union_ab 8)) /\
  Sizeof (state_after 4 (union_ab 8)) "u" = Ok 8 /\
  Sizeof (state_after 4 (union_ba 8)) "u" = Ok 8.
Proof. repeat split; vm_compute; reflexivity. Qed.

(** ** Automatic member offsets *)

Lemma AddMember_auto tm parent name type offset arrsize tm' :
  offset < 0 ->
  AddMember tm parent name type offset arrsize = Ok (true, tm') ->
  auto_placed tm parent name type arrsize tm'.
Proof.
  intros Hoff. unfold AddMember.
  destruct (structs tm !! parent) as [s |] eqn:Hs; [| discriminate].
  destruct ((arrsize <? 0) || negb (isDefined tm type)); [discriminate |].
  destruct (existsb _ (members s)); [discriminate |].
  destruct (Z.ltb_spec offset 0) as [_ | Hge]; [| lia].
  destruct (getSizeof depth_fuel tm parent 0) as [[size stored] | |] eqn:Hg;
    cbn [mbind outcome_bind]; try discriminate.
  destruct (negb (length (members s) =? 0)%nat && (size =? 0));
    [discriminate |].
  destruct (Sizeof tm type) as [typesize | |] eqn:Ht;
    cbn [mbind outcome_bind]; try discriminate.
  destruct stored as [pad |]; [| discriminate].
  intros Heq. injection Heq as <-.
  exists s, size, pad, typesize,
    (if negb (pad =? 0) && (typesize <=? pad) then Int.sub size pad else size).
  split; [exact Hs |]. split; [exact Hg |]. split; [exact Ht |].
  split; [| split; [| reflexivity]].
  - intros [Hp Hl].
    destruct (Z.eqb_spec pad 0); [contradiction |].
    destruct (Z.leb_spec typesize pad); [reflexivity | lia].
  - intros Hp.
    destruct (Z.eqb_spec pad 0); [reflexivity |].
    destruct (Z.leb_spec typesize pad); [lia | reflexivity].
Qed.

(** C3.  With an omitted (negative) offset, a successful [AddMember]
    appends the member at the size of the aggregate computed before the
    insertion, except that when that computation reports trailing
    padding and the size of the new member's type is at most the
    padding, the offset is pulled back by the padding; [AppendMember]
    is the same call on the current aggregate.  A struct of alignment 8
    with automatic members [a : int32] and [b : int64] has [a] at 0,
    [b] at 8 and size 16. *)
Theorem auto_offset_policy :
  (forall tm parent name type offset arrsize tm',
     offset < 0 ->
     (AddMember tm parent name type offset arrsize = Ok (true, tm') ->
      auto_placed tm parent name type arrsize tm') /\
     (AppendMember tm name type offset arrsize = Ok (true, tm') ->
      auto_placed tm (laststruct tm) name type arrsize tm')) /\
  (forall sizeof_ptr,
     run sizeof_ptr struct_ab (TypeManager_new sizeof_ptr)
     = Ok ([true; true; true], state_after sizeof_ptr struct_ab) /\
     structs (state_after sizeof_ptr struct_ab) !! "s"
     = Some (mkStructUnion false 8 "s"
               [mkMember "a" "int32" 0 0; mkMember "b" "int64" 8 0]) /\
     Sizeof (state_after sizeof_ptr struct_ab) "s" = Ok 16).
Proof.
  split.
  - intros tm parent name type offset arrsize tm' Hoff. split.
    + now apply AddMember_auto.
    + unfold AppendMember. now apply AddMember_auto.
  - intros sizeof_ptr. repeat split; vm_compute; reflexivity.
Qed.

Lemma auto_offset_policy_witness :
  -1 < 0 /\
  auto_placed (state_after 8 struct_a) "s" "b" "int32" 0
    (push_member (state_after 8 struct_a) "s"
       (mkStructUnion false 8 "s" [mkMember "a" "int32" 0 0])
       (mkMember "b" "int32" 4 0)).
Proof.
  split; [lia |].
  destruct auto_offset_policy as [Hgen _].
  apply (Hgen (state_after 8 struct_a) "s" "b" "int32" (-1) 0); [lia |].
  vm_compute. reflexivity.
Defined.

(** ** The catalog never changes *)

Lemma same_catalog_refl tm : same_catalog tm tm.
Proof. split; [reflexivity | intros kind; split; auto]. Qed.

Lemma same_catalog_trans tm1 tm2 tm3 :
  same_catalog tm1 tm2 -> same_catalog tm2 tm3 -> same_catalog tm1 tm3.
Proof.
  intros [HP1 HW1] [HP2 HW2]. split; [congruence |].
  intros kind. destruct (HW1 kind) as [E1 S1], (HW2 kind) as [E2 S2].
  split; [congruence | auto].
Qed.

Lemma same_catalog_fields tm tm' :
  primitives tm' = primitives tm -> primitivesizes tm' = primitivesizes tm ->
  same_catalog tm tm'.
Proof.
  intros HP HS. split; [exact HP |].
  intros kind. unfold natural_width. rewrite HS. auto.
Qed.

(** What [operator[]] leaves behind reads as the table did. *)
Lemma same_catalog_index tm kind :
  same_catalog tm
    (set_primitivesizes (map_index kind (primitivesizes tm)).2 tm).
Proof.
  split; [reflexivity |].
  intros k. unfold natural_width, map_index. simpl.
  destruct (primitivesizes tm !! kind) eqn:Hk; simpl;
    [split; [reflexivity | trivial] |].
  destruct (decide (kind = k)) as [<- | Hne].
  - rewrite lookup_insert_eq, Hk. split; [reflexivity | intros _; now eexists].
  - rewrite lookup_insert_ne by assumption.
    split; [now destruct (primitivesizes tm !! k) | trivial].
Qed.

Lemma AddType_t_catalog tm t : same_catalog tm (AddType_t tm t).2.
Proof.
  unfold AddType_t. destruct (isDefined tm (t_name t)); simpl;
    [apply same_catalog_refl | now apply same_catalog_fields].
Qed.

Lemma AddType_catalog tm name kind bitsize pointto :
  same_catalog tm (AddType tm name kind bitsize pointto).2.
Proof.
  unfold AddType.
  destruct (isDefined tm name); [apply same_catalog_refl |].
  pose proof (same_catalog_index tm kind) as Hidx.
  destruct (map_index kind (primitivesizes tm)) as [primsize sizes].
  simpl in Hidx.
  destruct (bitsize <=? 0);
    [eapply same_catalog_trans; [exact Hidx | apply AddType_t_catalog] |].
  destruct (bitsize >? primsize);
    [exact Hidx
    | eapply same_catalog_trans; [exact Hidx | apply AddType_t_catalog]].
Qed.

Lemma AddType_str_catalog tm name primitive :
  same_catalog tm (AddType_str tm name primitive).2.
Proof.
  unfold AddType_str.
  destruct (primitives tm !! primitive);
    [apply AddType_catalog | apply same_catalog_refl].
Qed.

Lemma AddStruct_s_catalog tm s : same_catalog tm (AddStruct_s tm s).2.
Proof.
  unfold AddStruct_s. destruct (isDefined _ _); now apply same_catalog_fields.
Qed.

Lemma AddUnion_u_catalog tm u : same_catalog tm (AddUnion_u tm u).2.
Proof.
  unfold AddUnion_u. destruct (isDefined _ _); now apply same_catalog_fields.
Qed.

Lemma AddMember_m_catalog tm parent member :
  same_catalog tm (AddMember_m tm parent member).2.
Proof.
  unfold AddMember_m.
  destruct (structs tm !! parent);
    [now apply same_catalog_fields | apply same_catalog_refl].
Qed.

Lemma AddMember_catalog tm parent name type offset arrsize b tm' :
  AddMember tm parent name type offset arrsize = Ok (b, tm') ->
  same_catalog tm tm'.
Proof.
  unfold AddMember.
  destruct (structs tm !! parent) as [s |];
    [| intros H; injection H as <- <-; apply same_catalog_refl].
  destruct ((arrsize <? 0) || negb (isDefined tm type));
    [intros H; injection H as <- <-; apply same_catalog_refl |].
  destruct (existsb _ (members s));
    [intros H; injection H as <- <-; apply same_catalog_refl |].
  destruct (offset <? 0);
    [| intros H; injection H as <- <-; now apply same_catalog_fields].
  intros H. apply bind_Ok in H as ([size stored] & _ & H).
  destruct (negb (length (members s) =? 0)%nat && (size =? 0));
    [injection H as <- <-; apply same_catalog_refl |].
  apply bind_Ok in H as (typesize & _ & H).
  destruct stored as [pad |]; [| discriminate].
  injection H as <- <-. now apply same_catalog_fields.
Qed.

Lemma Ok_pair_snd {A B} (x : A * B) (a : A) (b : B) :
  Ok x = Ok (a, b) -> b = x.2.
Proof. intros H. injection H as ->. reflexivity. Qed.

Lemma exec_catalog sizeof_ptr c tm b tm' :
  exec sizeof_ptr c tm = Ok (b, tm') -> same_catalog tm tm'.
Proof.
  destruct c; simpl; intros H;
    try (apply Ok_pair_snd in H as ->).
  - apply AddType_str_catalog.
  - apply AddType_catalog.
  - apply AddType_t_catalog.
  - apply AddStruct_s_catalog.
  - apply AddStruct_s_catalog.
  - apply AddUnion_u_catalog.
  - apply AddUnion_u_catalog.
  - eapply AddMember_catalog, H.
  - eapply AddMember_catalog, H.
  - apply AddMember_m_catalog.
Qed.

Lemma run_catalog sizeof_ptr cs tm bs tm' :
  run sizeof_ptr cs tm = Ok (bs, tm') -> same_catalog tm tm'.
Proof.
  revert tm bs tm'.
  induction cs as [| c cs IH]; intros tm bs tm' H.
  - injection H as _ <-. apply same_catalog_refl.
  - cbn [run] in H.
    apply bind_Ok in H as ([b tm1] & Hc & H).
    apply bind_Ok in H as ([bs1 tm2] & Hcs & H).
    injection H as _ <-.
    eapply same_catalog_trans; [eapply exec_catalog, Hc | eapply IH, Hcs].
Qed.

Lemma reachable_catalog sizeof_ptr tm :
  reachable sizeof_ptr tm -> same_catalog (TypeManager_new sizeof_ptr) tm.
Proof. intros (cs & bs & H). eapply run_catalog, H. Qed.

(** ** The catalog after construction *)

Lemma new_primitivesizes sizeof_ptr kind :
  primitivesizes (TypeManager_new sizeof_ptr) !! kind
  = width_table sizeof_ptr kind.
Proof. destruct kind; vm_compute; reflexivity. Qed.

Lemma new_spelled_kinds sizeof_ptr :
  map_Forall (fun _ kind => kind <> Uint16)
    (primitives (TypeManager_new sizeof_ptr)).
Proof. apply (bool_decide_unpack _). vm_compute. exact I. Qed.

Lemma natural_width_nonneg sizeof_ptr tm kind :
  0 <= sizeof_ptr -> reachable sizeof_ptr tm -> 0 <= natural_width tm kind.
Proof.
  intros Hp Hr. destruct (reachable_catalog _ _ Hr) as [_ HW].
  rewrite (proj1 (HW kind)). unfold natural_width, map_index.
  rewrite new_primitivesizes. destruct kind; simpl; lia.
Qed.

(** The kinds the spellings map to have their entry in the width
    table, so the [operator[]] of [getSizeof] never creates one. *)
Lemma reachable_sizes_present sizeof_ptr tm spelling kind :
  reachable sizeof_ptr tm -> primitives tm !! spelling = Some kind ->
  is_Some (primitivesizes tm !! kind) /\
  (map_index kind (primitivesizes tm)).2 = primitivesizes tm.
Proof.
  intros Hr Hk. destruct (reachable_catalog _ _ Hr) as [HP HW].
  rewrite HP in Hk.
  pose proof (new_spelled_kinds sizeof_ptr spelling kind Hk) as Hne.
  assert (Hs : is_Some (primitivesizes tm !! kind)).
  { apply (HW kind). rewrite new_primitivesizes.
    destruct kind; simpl; eauto. contradiction. }
  split; [exact Hs |].
  unfold map_index. now destruct Hs as [v ->].
Qed.

(** ** Type aliases *)

Lemma isDefined_false tm id :
  isDefined tm id = false ->
  primitives tm !! id = None /\ types tm !! id = None /\
  structs tm !! id = None.
Proof.
  unfold isDefined, mapContains.
  destruct (primitives tm !! id), (types tm !! id), (structs tm !! id);
    simpl; intros H; try discriminate; auto.
Qed.

Lemma AddType_fresh tm name kind bitsize pointto :
  isDefined tm name = false ->
  AddType tm name kind bitsize pointto
  = if (0 <? bitsize) && (natural_width tm kind <? bitsize)
    then (false, indexed tm kind)
    else (true,
          set_types
            (<[name := mkType name kind
                         (if bitsize <=? 0 then natural_width tm kind
                          else bitsize) pointto]> (types tm))
            (indexed tm kind)).
Proof.
  intros Hdef. unfold AddType, indexed, natural_width. rewrite Hdef.
  destruct (isDefined_false _ _ Hdef) as (_ & HT & _).
  destruct (map_index kind (primitivesizes tm)) as [primsize sizes]. simpl.
  unfold AddType_t. simpl.
  change (isDefined (set_primitivesizes sizes tm) name)
    with (isDefined tm name).
  rewrite Hdef. unfold map_insert_new. simpl. rewrite HT.
  destruct (Z.leb_spec bitsize 0), (Z.ltb_spec 0 bitsize); try lia;
    simpl; [reflexivity |].
  rewrite Z.gtb_ltb. now destruct (primsize <? bitsize).
Qed.

Lemma getSizeof_type fuel tm name depth t :
  primitives tm !! name = None -> types tm !! name = Some t ->
  depth < 100 ->
  getSizeof (S fuel) tm name depth
  = Ok (Int.div
          (if Z.rem (t_bitsize t) 8 =? 0 then t_bitsize t
           else Int.add (t_bitsize t) (Int.sub 8 (Z.rem (t_bitsize t) 8)))
          8, Some 0).
Proof.
  intros HP HT Hd. cbn [getSizeof].
  destruct (Z.geb_spec depth 100); [lia |]. now rewrite HP, HT.
Qed.

(** The size of an alias that was just stored with [bitsize] bits. *)
Lemma Sizeof_stored_alias tm name kind bitsize pointto sizes :
  primitives tm !! name = None ->
  Sizeof (set_types (<[name := mkType name kind bitsize pointto]> (types tm))
            (set_primitivesizes sizes tm)) name
  = Ok (Int.div
          (if Z.rem bitsize 8 =? 0 then bitsize
           else Int.add bitsize (Int.sub 8 (Z.rem bitsize 8))) 8).
Proof.
  intros HP. unfold Sizeof, depth_fuel.
  rewrite (getSizeof_type _ _ _ _ (mkType name kind bitsize pointto));
    [reflexivity | exact HP | apply lookup_insert_eq | lia].
Qed.

Lemma reachable_natural_width sizeof_ptr tm kind :
  reachable sizeof_ptr tm ->
  natural_width tm kind
  = if decide (kind = Uint16) then 0 else kind_bits sizeof_ptr kind.
Proof.
  intros Hr. destruct (reachable_catalog _ _ Hr) as [_ HW].
  rewrite (proj1 (HW kind)). unfold natural_width, map_index.
  rewrite new_primitivesizes. now destruct kind.
Qed.

(** What C5 states holds for every kind but [Uint16].  On every state
    of a [TypeManager] object, [AddType] with such a kind fails exactly
    when the name is already defined or the bit size exceeds the width
    of the kind; otherwise it stores the type, with the width of the
    kind when no positive bit size is given.  On a fresh name, kind
    [Int32] with 40 bits fails, with 16 bits succeeds, and the size of
    that alias is 2. *)
Theorem AddType_narrowing_only (sizeof_ptr : Z) (tm : TypeManager)
    (name : string) (kind : Primitive) (bitsize : Z) (pointto : string) :
  0 <= sizeof_ptr -> reachable sizeof_ptr tm -> kind <> Uint16 ->
  ((AddType tm name kind bitsize pointto).1 = false <->
   isDefined tm name = true \/ kind_bits sizeof_ptr kind < bitsize) /\
  ((AddType tm name kind bitsize pointto).1 = true ->
   types (AddType tm name kind bitsize pointto).2 !! name
   = Some (mkType name kind
             (if bitsize <=? 0 then kind_bits sizeof_ptr kind else bitsize)
             pointto)) /\
  (isDefined tm name = false ->
   (AddType tm name Int32 40 pointto).1 = false /\
   (AddType tm name Int32 16 pointto).1 = true /\
   Sizeof (AddType tm name Int32 16 pointto).2 name = Ok 2).
Proof.
  intros Hptr Hr Hkind.
  pose proof (natural_width_nonneg _ _ kind Hptr Hr) as Hw.
  pose proof (reachable_natural_width _ _ kind Hr) as Hk.
  pose proof (reachable_natural_width _ _ Int32 Hr) as H32.
  destruct (decide (kind = Uint16)); [contradiction |]. simpl in H32.
  rewrite <- Hk.
  destruct (isDefined tm name) eqn:Hdef.
  - unfold AddType. rewrite Hdef. simpl.
    split; [split; auto |]. split; discriminate.
  - rewrite !AddType_fresh by assumption. rewrite H32.
    destruct (isDefined_false _ _ Hdef) as (HP & _ & _).
    split; [| split].
    + destruct (Z.ltb_spec 0 bitsize),
        (Z.ltb_spec (natural_width tm kind) bitsize); simpl;
        (split; [intros E; try discriminate E; right; lia
                | intros [E | E]; [discriminate E | try reflexivity; lia]]).
    + destruct ((0 <? bitsize) && (natural_width tm kind <? bitsize));
        simpl; [discriminate | intros _; apply lookup_insert_eq].
    + intros _. simpl. split; [reflexivity |]. split; [reflexivity |].
      unfold indexed. now rewrite Sizeof_stored_alias.
Qed.

Lemma AddType_narrowing_only_Int32 :
  0 <= 8 /\ reachable 8 (TypeManager_new 8) /\ Int32 <> Uint16 /\
  (AddType (TypeManager_new 8) "word" Int32 40 "").1 = false /\
  (AddType (TypeManager_new 8) "word" Int32 16 "").1 = true /\
  Sizeof (AddType (TypeManager_new 8) "word" Int32 16 "").2 "word" = Ok 2.
Proof.
  assert (Hr : reachable 8 (TypeManager_new 8)) by (exists [], []; reflexivity).
  split; [lia |]. split; [exact Hr |]. split; [discriminate |].
  destruct (AddType_narrowing_only 8 (TypeManager_new 8) "word" Int32 16 ""
              ltac:(lia) Hr ltac:(discriminate)) as (_ & _ & H).
  apply H. reflexivity.
Defined.

(** C5 at kind [Uint16].  On a newly constructed [TypeManager], the
    name "word" is not defined and 8 bits do not exceed the 16 bits of
    the kind [Uint16], yet [AddType] returns false and stores no type:
    the width it reads for [Uint16] is 0. *)
Theorem AddType_Uint16_rejects_narrowing :
  isDefined (TypeManager_new 8) "word" = false /\
  8 <= kind_bits 8 Uint16 /\
  natural_width (TypeManager_new 8) Uint16 = 0 /\
  (AddType (TypeManager_new 8) "word" Uint16 8 "").1 = false /\
  types (AddType (TypeManager_new 8) "word" Uint16 8 "").2 !! "word" = None.
Proof. repeat split; vm_compute; try reflexivity; discriminate. Qed.

(** C7.  The width table is built without an entry for [Uint16]: the
    uint16 spellings are registered under [Int16].  So on every state of
    a [TypeManager] object the width read for [Uint16] is 0, [AddType]
    with kind [Uint16] returns false for every positive bit size, and
    with the default bit size on a fresh name it stores an alias of bit
    size 0, whose size is 0. *)
Theorem Uint16_has_no_width (sizeof_ptr : Z) (tm : TypeManager)
    (name pointto : string) :
  reachable sizeof_ptr tm ->
  primitivesizes (TypeManager_new sizeof_ptr) !! Uint16 = None /\
  Forall (fun spelling => primitives tm !! spelling = Some Int16)
    ["uint16_t"; "uint16"; "ushort"; "unsigned short"] /\
  natural_width tm Uint16 = 0 /\
  (forall bitsize, 0 < bitsize ->
     (AddType tm name Uint16 bitsize pointto).1 = false) /\
  (isDefined tm name = false ->
   (AddType tm name Uint16 0 pointto).1 = true /\
   types (AddType tm name Uint16 0 pointto).2 !! name
   = Some (mkType name Uint16 0 pointto) /\
   Sizeof (AddType tm name Uint16 0 pointto).2 name = Ok 0).
Proof.
  intros Hr. destruct (reachable_catalog _ _ Hr) as [HP HW].
  assert (H16 : natural_width tm Uint16 = 0).
  { rewrite (proj1 (HW Uint16)). reflexivity. }
  split; [reflexivity |].
  split; [rewrite HP; repeat constructor |].
  split; [exact H16 |]. split.
  - intros bitsize Hb. destruct (isDefined tm name) eqn:Hdef.
    + unfold AddType. now rewrite Hdef.
    + rewrite AddType_fresh, H16 by assumption.
      destruct (Z.ltb_spec 0 bitsize); [reflexivity | lia].
  - intros Hdef. rewrite AddType_fresh, H16 by assumption. simpl.
    destruct (isDefined_false _ _ Hdef) as (HPn & _ & _).
    split; [reflexivity |]. split; [apply lookup_insert_eq |].
    unfold indexed. now rewrite Sizeof_stored_alias.
Qed.

Lemma Uint16_has_no_width_witness :
  reachable 8 (TypeManager_new 8) /\
  (AddType (TypeManager_new 8) "w16" Uint16 16 "").1 = false /\
  (AddType (TypeManager_new 8) "w16" Uint16 0 "").1 = true /\
  Sizeof (AddType (TypeManager_new 8) "w16" Uint16 0 "").2 "w16" = Ok 0.
Proof.
  assert (Hr : reachable 8 (TypeManager_new 8)) by (exists [], []; reflexivity).
  split; [exact Hr |].
  destruct (Uint16_has_no_width 8 (TypeManager_new 8) "w16" "" Hr)
    as (_ & _ & _ & Hpos & Hdefault).
  split; [apply Hpos; lia |].
  destruct Hdefault as (H1 & _ & H2); [reflexivity |].
  split; assumption.
Defined.

(** ** Members given as records *)

Lemma push_member_lookup tm parent s m :
  structs (push_member tm parent s m) !! parent
  = Some (mkStructUnion (isunion s) (alignment s) (su_name s)
            (members s ++ [m])).
Proof. unfold push_member. simpl. apply lookup_insert_eq. Qed.

(** C10.  [AddMember] with a [Member] record checks nothing but the
    parent: on a registered aggregate it returns true and appends the
    record as it is, whatever its name, type name, offset and array
    count; on an unknown parent it returns false and changes nothing. *)
Theorem AddMember_m_unvalidated (tm : TypeManager) (parent : string)
    (member : Member) :
  (forall s, structs tm !! parent = Some s ->
     AddMember_m tm parent member = (true, push_member tm parent s member) /\
     structs (AddMember_m tm parent member).2 !! parent
     = Some (mkStructUnion (isunion s) (alignment s) (su_name s)
               (members s ++ [member]))) /\
  (structs tm !! parent = None ->
     AddMember_m tm parent member = (false, tm)).
Proof.
  unfold AddMember_m. split.
  - intros s ->. split; [reflexivity | apply push_member_lookup].
  - now intros ->.
Qed.

Lemma AddMember_m_unvalidated_witness :
  structs (state_after 8 struct_a) !! "s"
  = Some (mkStructUnion false 8 "s" [mkMember "a" "int32" 0 0]) /\
  isDefined (state_after 8 struct_a) "nosuch" = false /\
  structs (AddMember_m (state_after 8 struct_a) "s"
             (mkMember "a" "nosuch" (-5) (-3))).2 !! "s"
  = Some (mkStructUnion false 8 "s"
            [mkMember "a" "int32" 0 0; mkMember "a" "nosuch" (-5) (-3)]).
Proof.
  assert (Hs : structs (state_after 8 struct_a) !! "s"
               = Some (mkStructUnion false 8 "s" [mkMember "a" "int32" 0 0]))
    by (vm_compute; reflexivity).
  split; [exact Hs |]. split; [vm_compute; reflexivity |].
  destruct (AddMember_m_unvalidated (state_after 8 struct_a) "s"
              (mkMember "a" "nosuch" (-5) (-3))) as [Hadd _].
  exact (proj2 (Hadd _ Hs)).
Defined.

(** ** Failing [AddMember] calls *)

Lemma has_member_named ms name :
  existsb (fun member => String.eqb (m_name member) name) ms = true <->
  exists m, m ∈ ms /\ m_name m = name.
Proof.
  rewrite existsb_exists. split; intros (m & Hin & Hn); exists m.
  - split; [now apply list_elem_of_In | now apply String.eqb_eq].
  - split; [now apply list_elem_of_In | now apply String.eqb_eq].
Qed.

Lemma length_eqb_0 {A} (l : list A) : (length l =? 0)%nat = true <-> l = [].
Proof. destruct l; simpl; split; intros; congruence. Qed.

Lemma AddMember_false_iff tm parent name type offset arrsize :
  (exists tm', AddMember tm parent name type offset arrsize = Ok (false, tm'))
  <-> AddMember_rejects tm parent name type offset arrsize.
Proof.
  unfold AddMember, AddMember_rejects.
  destruct (structs tm !! parent) as [s |] eqn:Hs;
    [| split; [now left | eauto]].
  destruct (Z.ltb_spec arrsize 0) as [Ha | Ha]; cbn [orb negb andb];
    [split; [auto | eauto] |].
  destruct (isDefined tm type) eqn:Hd; cbn [orb negb andb]; [| split; [auto | eauto]].
  destruct (existsb _ (members s)) eqn:Hex.
  { split; [| eauto]. intros _. apply has_member_named in Hex as (m & Hm).
    right; right; right; left. exists s, m. tauto. }
  assert (Hnodup : ~ exists s' m, Some s = Some s' /\ m ∈ members s' /\
                                   m_name m = name).
  { intros (s' & m & E & Hm). injection E as <-.
    assert (Ht : existsb (fun member => String.eqb (m_name member) name)
                   (members s) = true) by (apply has_member_named; eauto).
    congruence. }
  destruct (Z.ltb_spec offset 0) as [Ho | Ho].
  2: { split; [intros [tm' E]; discriminate E |].
       intros [E | [E | [E | [E | [E _]]]]];
         [discriminate E | lia | discriminate E | contradiction | lia]. }
  destruct (getSizeof depth_fuel tm parent 0) as [[size stored] | |] eqn:Hg;
    cbn [mbind outcome_bind].
  - destruct (length (members s) =? 0)%nat eqn:Hlen; cbn [orb negb andb].
    + apply length_eqb_0 in Hlen.
      split.
      * intros [tm' E]. destruct (Sizeof tm type); cbn [mbind outcome_bind] in E;
          try discriminate E. destruct stored; discriminate E.
      * intros [E | [E | [E | [E | (_ & s' & st & E & Hne & _)]]]];
          [discriminate E | lia | discriminate E | contradiction |].
        injection E as <-. contradiction.
    + destruct (Z.eqb_spec size 0) as [-> | Hsz].
      * split; [| eauto]. intros _. do 4 right. split; [exact Ho |].
        exists s, stored. split; [reflexivity |]. split; [| reflexivity].
        intros E. apply length_eqb_0 in E. congruence.
      * split.
        -- intros [tm' E].
           destruct (Sizeof tm type); cbn [mbind outcome_bind] in E;
             try discriminate E. destruct stored; discriminate E.
        -- intros [E | [E | [E | [E | (_ & s' & st & _ & _ & E)]]]];
             [discriminate E | lia | discriminate E | contradiction |].
           injection E as E _. contradiction.
  - split; [intros [tm' E]; discriminate E |].
    intros [E | [E | [E | [E | (_ & s' & st & _ & _ & E)]]]];
      [discriminate E | lia | discriminate E | contradiction | discriminate E].
  - split; [intros [tm' E]; discriminate E |].
    intros [E | [E | [E | [E | (_ & s' & st & _ & _ & E)]]]];
      [discriminate E | lia | discriminate E | contradiction | discriminate E].
Qed.

(** A call that returns false returns the state it was given. *)
Lemma AddMember_false_state tm parent name type offset arrsize tm' :
  AddMember tm parent name type offset arrsize = Ok (false, tm') -> tm' = tm.
Proof.
  unfold AddMember.
  destruct (structs tm !! parent) as [s |]; [| now intros [= <-]].
  destruct ((arrsize <? 0) || negb (isDefined tm type)); [now intros [= <-] |].
  destruct (existsb _ (members s)); [now intros [= <-] |].
  destruct (offset <? 0); [| discriminate].
  destruct (getSizeof depth_fuel tm parent 0) as [[size stored] | |];
    cbn [mbind outcome_bind]; try discriminate.
  destruct (negb (length (members s) =? 0)%nat && (size =? 0));
    [now intros [= <-] |].
  destruct (Sizeof tm type); cbn [mbind outcome_bind]; try discriminate.
  destruct stored; discriminate.
Qed.

(** C6.  [AddMember] returns false exactly when the parent aggregate is
    unknown, the array count is negative, the type name is not defined,
    the aggregate already has a member of that name, or, with an
    automatic offset, the aggregate has members and its computed size
    is 0.  A call that returns false leaves the registry, and so the
    member count of the aggregate, as it was. *)
Theorem AddMember_fails_iff (tm : TypeManager) (parent name type : string)
    (offset arrsize : Z) :
  ((exists tm',
      AddMember tm parent name type offset arrsize = Ok (false, tm')) <->
   AddMember_rejects tm parent name type offset arrsize) /\
  (forall tm',
     AddMember tm parent name type offset arrsize = Ok (false, tm') ->
     tm' = tm /\
     forall s, structs tm !! parent = Some s ->
       exists s', structs tm' !! parent = Some s' /\
                  length (members s') = length (members s)).
Proof.
  split; [apply AddMember_false_iff |].
  intros tm' H. apply AddMember_false_state in H as ->.
  split; [reflexivity | eauto].
Qed.

Lemma AddMember_fails_iff_witness :
  AddMember_rejects (state_after 8 struct_a) "s" "a" "int64" auto_offset 0 /\
  AddMember (state_after 8 struct_a) "s" "a" "int64" auto_offset 0
  = Ok (false, state_after 8 struct_a).
Proof.
  assert (Hrej : AddMember_rejects (state_after 8 struct_a) "s" "a" "int64"
                   auto_offset 0).
  { right; right; right; left.
    exists (mkStructUnion false 8 "s" [mkMember "a" "int32" 0 0]),
           (mkMember "a" "int32" 0 0).
    split; [vm_compute; reflexivity |].
    split; [apply list_elem_of_here | reflexivity]. }
  split; [exact Hrej |].
  destruct (AddMember_fails_iff (state_after 8 struct_a) "s" "a" "int64"
              auto_offset 0) as [Hiff Hsame].
  destruct (proj2 Hiff Hrej) as [tm' Hcall].
  rewrite Hcall. destruct (Hsame tm' Hcall) as [-> _]. reflexivity.
Defined.

(** ** The current aggregate *)

Lemma AddStruct_s_defined tm s :
  isDefined tm (su_name s) = true ->
  AddStruct_s tm s = (false, set_laststruct (su_name s) tm).
Proof.
  intros Hdef. unfold AddStruct_s.
  change (isDefined (set_laststruct (su_name s) tm) (su_name s))
    with (isDefined tm (su_name s)).
  now rewrite Hdef.
Qed.

Lemma AddUnion_u_defined tm u :
  isDefined tm (su_name u) = true ->
  AddUnion_u tm u = (false, set_laststruct (su_name u) tm).
Proof.
  intros Hdef. unfold AddUnion_u.
  change (isDefined (set_laststruct (su_name u) tm) (su_name u))
    with (isDefined tm (su_name u)).
  now rewrite Hdef.
Qed.

Lemma AddStruct_defined sizeof_ptr tm name align :
  isDefined tm name = true ->
  AddStruct sizeof_ptr tm name align = (false, set_laststruct name tm).
Proof.
  intros Hdef. unfold AddStruct. simpl.
  destruct (align >? 0); now rewrite AddStruct_s_defined.
Qed.

Lemma AddUnion_defined sizeof_ptr tm name align :
  isDefined tm name = true ->
  AddUnion sizeof_ptr tm name align = (false, set_laststruct name tm).
Proof.
  intros Hdef. unfold AddUnion. simpl.
  destruct (align >? 0); now rewrite AddUnion_u_defined.
Qed.

(** C9.  [AddStruct] and [AddUnion] on a name that is already defined
    return false and still make that name the current aggregate, the
    rest of the state being as before; [AppendMember] then is
    [AddMember] on that name, and so works on the aggregate that
    already had it. *)
Theorem failed_creation_rebinds (sizeof_ptr : Z) (tm : TypeManager)
    (name : string) (align : Z) :
  isDefined tm name = true ->
  AddStruct sizeof_ptr tm name align = (false, set_laststruct name tm) /\
  AddUnion sizeof_ptr tm name align = (false, set_laststruct name tm) /\
  laststruct (set_laststruct name tm) = name /\
  structs (set_laststruct name tm) = structs tm /\
  (forall member type offset arrsize,
     AppendMember (set_laststruct name tm) member type offset arrsize
     = AddMember (set_laststruct name tm) name member type offset arrsize) /\
  (forall s member type offset arrsize,
     structs tm !! name = Some s -> 0 <= offset -> 0 <= arrsize ->
     isDefined tm type = true ->
     (forall m, m ∈ members s -> m_name m <> member) ->
     AppendMember (set_laststruct name tm) member type offset arrsize
     = Ok (true, push_member (set_laststruct name tm) name s
                   (mkMember member type offset arrsize))).
Proof.
  intros Hdef.
  split; [now apply AddStruct_defined |].
  split; [now apply AddUnion_defined |].
  split; [reflexivity |]. split; [reflexivity |]. split; [reflexivity |].
  intros s member type offset arrsize Hlook Hoff Harr Htype Hfresh.
  unfold AppendMember, AddMember. cbn [laststruct set_laststruct structs].
  rewrite Hlook.
  change (isDefined (set_laststruct name tm) type) with (isDefined tm type).
  rewrite Htype.
  destruct (Z.ltb_spec arrsize 0); [lia |]. cbn [orb negb].
  destruct (existsb _ (members s)) eqn:Hex.
  { apply has_member_named in Hex as (m & Hin & Hn).
    now destruct (Hfresh m Hin). }
  destruct (Z.ltb_spec offset 0); [lia | reflexivity].
Qed.

Lemma failed_creation_rebinds_witness :
  isDefined (state_after 8 two_structs) "s" = true /\
  laststruct (state_after 8 two_structs) = "t" /\
  AddStruct 8 (state_after 8 two_structs) "s" 0
  = (false, set_laststruct "s" (state_after 8 two_structs)) /\
  exists tm',
    AppendMember (set_laststruct "s" (state_after 8 two_structs))
      "c" "int8" auto_offset 0 = Ok (true, tm') /\
    structs tm' !! "s"
    = Some (mkStructUnion false 8 "s"
              [mkMember "a" "int32" 0 0; mkMember "c" "int8" 4 0]) /\
    structs tm' !! "t" = Some (mkStructUnion false 8 "t" []).
Proof.
  assert (Hdef : isDefined (state_after 8 two_structs) "s" = true)
    by (vm_compute; reflexivity).
  split; [exact Hdef |]. split; [vm_compute; reflexivity |].
  destruct (failed_creation_rebinds 8 (state_after 8 two_structs) "s" 0 Hdef)
    as (Hadd & _ & _ & _ & Happ & _).
  split; [exact Hadd |].
  rewrite Happ.
  exists (push_member (set_laststruct "s" (state_after 8 two_structs)) "s"
            (mkStructUnion false 8 "s" [mkMember "a" "int32" 0 0])
            (mkMember "c" "int8" 4 0)).
  repeat split; vm_compute; reflexivity.
Defined.

(** ** Failing calls and the state *)

Lemma AddType_t_false tm t tm' : AddType_t tm t = (false, tm') -> tm' = tm.
Proof.
  unfold AddType_t. destruct (isDefined tm (t_name t));
    [now intros [= <-] | discriminate].
Qed.

Lemma AddType_false tm name kind bitsize pointto tm' :
  AddType tm name kind bitsize pointto = (false, tm') ->
  (isDefined tm name = true /\ tm' = tm) \/
  (isDefined tm name = false /\ natural_width tm kind < bitsize /\
   0 < bitsize /\ tm' = indexed tm kind).
Proof.
  destruct (isDefined tm name) eqn:Hdef.
  - unfold AddType. rewrite Hdef. intros [= <-]. now left.
  - rewrite AddType_fresh by assumption.
    destruct (Z.ltb_spec 0 bitsize), (Z.ltb_spec (natural_width tm kind) bitsize);
      simpl; try discriminate.
    intros [= <-]. right. auto.
Qed.

Lemma AddType_str_false tm name primitive tm' :
  AddType_str tm name primitive = (false, tm') -> tm' = tm.
Proof.
  unfold AddType_str. destruct (primitives tm !! primitive) as [kind |];
    [| now intros [= <-]].
  intros H. apply AddType_false in H as [[_ ->] | (_ & _ & Hlt & _)];
    [reflexivity | lia].
Qed.

Lemma AddStruct_s_false tm s tm' :
  AddStruct_s tm s = (false, tm') -> tm' = set_laststruct (su_name s) tm.
Proof.
  unfold AddStruct_s. destruct (isDefined _ _);
    [now intros [= <-] | discriminate].
Qed.

Lemma AddUnion_u_false tm u tm' :
  AddUnion_u tm u = (false, tm') -> tm' = set_laststruct (su_name u) tm.
Proof.
  unfold AddUnion_u. destruct (isDefined _ _);
    [now intros [= <-] | discriminate].
Qed.

Lemma AddStruct_false sizeof_ptr tm name align tm' :
  AddStruct sizeof_ptr tm name align = (false, tm') ->
  tm' = set_laststruct name tm.
Proof.
  unfold AddStruct. intros H. apply AddStruct_s_false in H as ->.
  simpl. now destruct (align >? 0).
Qed.

Lemma AddUnion_false sizeof_ptr tm name align tm' :
  AddUnion sizeof_ptr tm name align = (false, tm') ->
  tm' = set_laststruct name tm.
Proof.
  unfold AddUnion. intros H. apply AddUnion_u_false in H as ->.
  simpl. now destruct (align >? 0).
Qed.

Lemma AddMember_m_false tm parent member tm' :
  AddMember_m tm parent member = (false, tm') -> tm' = tm.
Proof.
  unfold AddMember_m. destruct (structs tm !! parent);
    [discriminate | now intros [= <-]].
Qed.

(** C2 (amended).  A call that returns false leaves the registry as it
    was, with two exceptions.  [AddStruct] and [AddUnion] still make the
    requested name the current aggregate, all else being unchanged.
    [AddType] with a kind that has no entry in the width table leaves a
    zero entry for it, which reads as the missing entry did.  A
    definition call on a name that is already defined fails in this
    way: the types and the aggregates are untouched. *)
Theorem failed_call_state (sizeof_ptr : Z) (tm tm' : TypeManager) :
  (forall name kind bitsize pointto,
     AddType tm name kind bitsize pointto = (false, tm') ->
     tm' = tm \/
     (primitivesizes tm !! kind = None /\
      tm' = set_primitivesizes (<[kind := 0]> (primitivesizes tm)) tm /\
      natural_width tm' kind = natural_width tm kind)) /\
  (forall name primitive,
     AddType_str tm name primitive = (false, tm') -> tm' = tm) /\
  (forall t, AddType_t tm t = (false, tm') -> tm' = tm) /\
  (forall name align,
     AddStruct sizeof_ptr tm name align = (false, tm') ->
     tm' = set_laststruct name tm) /\
  (forall s, AddStruct_s tm s = (false, tm') ->
     tm' = set_laststruct (su_name s) tm) /\
  (forall name align,
     AddUnion sizeof_ptr tm name align = (false, tm') ->
     tm' = set_laststruct name tm) /\
  (forall u, AddUnion_u tm u = (false, tm') ->
     tm' = set_laststruct (su_name u) tm) /\
  (forall parent name type offset arrsize,
     AddMember tm parent name type offset arrsize = Ok (false, tm') ->
     tm' = tm) /\
  (forall name type offset arrsize,
     AppendMember tm name type offset arrsize = Ok (false, tm') ->
     tm' = tm) /\
  (forall parent member,
     AddMember_m tm parent member = (false, tm') -> tm' = tm) /\
  (forall name, isDefined tm name = true ->
     (forall kind bitsize pointto,
        AddType tm name kind bitsize pointto = (false, tm)) /\
     (forall kind bitsize pointto,
        AddType_t tm (mkType name kind bitsize pointto) = (false, tm)) /\
     (forall align,
        AddStruct sizeof_ptr tm name align = (false, set_laststruct name tm) /\
        AddUnion sizeof_ptr tm name align = (false, set_laststruct name tm))).
Proof.
  split.
  { intros name kind bitsize pointto H.
    apply AddType_false in H as [[_ ->] | (_ & _ & _ & ->)]; [now left |].
    unfold indexed, map_index.
    destruct (primitivesizes tm !! kind) as [v |] eqn:Hk.
    - left. now destruct tm.
    - right. split; [reflexivity |]. split; [reflexivity |].
      unfold natural_width, map_index. simpl.
      now rewrite lookup_insert_eq, Hk. }
  split; [intros name primitive; apply AddType_str_false |].
  split; [intros t; apply AddType_t_false |].
  split; [intros name align; apply AddStruct_false |].
  split; [intros s; apply AddStruct_s_false |].
  split; [intros name align; apply AddUnion_false |].
  split; [intros u; apply AddUnion_u_false |].
  split; [intros parent name type offset arrsize;
          apply AddMember_false_state |].
  split; [intros name type offset arrsize; apply AddMember_false_state |].
  split; [intros parent member; apply AddMember_m_false |].
  intros name Hdef.
  split; [intros kind bitsize pointto; unfold AddType; now rewrite Hdef |].
  split; [intros kind bitsize pointto; unfold AddType_t; simpl;
          now rewrite Hdef |].
  intros align.
  split; [now apply AddStruct_defined | now apply AddUnion_defined].
Qed.

Lemma failed_call_state_witness :
  isDefined (state_after 8 struct_a) "s" = true /\
  AddUnion 8 (state_after 8 struct_a) "s" 4
  = (false, set_laststruct "s" (state_after 8 struct_a)) /\
  AddType (state_after 8 struct_a) "s" Int8 0 ""
  = (false, state_after 8 struct_a) /\
  AddMember (state_after 8 struct_a) "s" "b" "nosuch" auto_offset 0
  = Ok (false, state_after 8 struct_a).
Proof.
  assert (Hdef : isDefined (state_after 8 struct_a) "s" = true)
    by (vm_compute; reflexivity).
  split; [exact Hdef |].
  destruct (failed_call_state 8 (state_after 8 struct_a)
              (state_after 8 struct_a))
    as (_ & _ & _ & _ & _ & _ & _ & Hmem & _ & _ & Hdup).
  destruct (Hdup "s" Hdef) as (Htype & _ & Hagg).
  split; [apply Hagg |]. split; [apply Htype |].
  assert (Hcall : exists tm',
            AddMember (state_after 8 struct_a) "s" "b" "nosuch" auto_offset 0
            = Ok (false, tm')).
  { apply AddMember_false_iff. right; right; left.
    vm_compute. reflexivity. }
  destruct Hcall as [tm' Hcall]. rewrite Hcall.
  destruct (failed_call_state 8 (state_after 8 struct_a) tm')
    as (_ & _ & _ & _ & _ & _ & _ & Hmem' & _).
  now rewrite (Hmem' _ _ _ _ _ Hcall).
Defined.

(** The claim C2 fails on the current aggregate and on the width table:
    a failing [AddStruct] rebinds the current aggregate, and a failing
    [AddType] of kind [Uint16] leaves a zero entry in the width table. *)
Lemma failed_calls_change_the_state :
  (AddStruct 8 (TypeManager_new 8) "int" 0).1 = false /\
  laststruct (TypeManager_new 8) = "" /\
  laststruct (AddStruct 8 (TypeManager_new 8) "int" 0).2 = "int" /\
  (AddStruct 8 (TypeManager_new 8) "int" 0).2 <> TypeManager_new 8 /\
  (AddType (TypeManager_new 8) "w16" Uint16 16 "").1 = false /\
  primitivesizes (TypeManager_new 8) !! Uint16 = None /\
  primitivesizes (AddType (TypeManager_new 8) "w16" Uint16 16 "").2 !! Uint16
  = Some 0.
Proof.
  repeat split; try (vm_compute; reflexivity).
  intros H. apply (f_equal laststruct) in H. vm_compute in H. discriminate.
Qed.

(** * Further properties of the registry *)
(** ** The effect of a call *)

Lemma AddType_t_effect tm t :
  effect tm (AddType_t tm t).2 (AddType_t tm t).1.
Proof.
  unfold AddType_t. destruct (isDefined tm (t_name t)) eqn:Hdef; simpl.
  - now apply effect_none.
  - apply (effect_type _ _ t); [exact Hdef | | reflexivity].
    simpl. unfold map_insert_new.
    now destruct (isDefined_false _ _ Hdef) as (_ & -> & _).
Qed.

Lemma effect_indexed tm kind tm' b :
  effect (indexed tm kind) tm' b -> effect tm tm' b.
Proof.
  intros H. destruct H as [HT HS | t Hd HT HS | s Hd HT HS | p s m Hp HT HS].
  - now apply effect_none.
  - now apply (effect_type _ _ t).
  - now apply (effect_aggregate _ _ s).
  - now apply (effect_member _ _ p s m).
Qed.

Lemma AddType_effect tm name kind bitsize pointto :
  effect tm (AddType tm name kind bitsize pointto).2
    (AddType tm name kind bitsize pointto).1.
Proof.
  unfold AddType. destruct (isDefined tm name); [now apply effect_none |].
  destruct (map_index kind (primitivesizes tm)) as [primsize sizes] eqn:Hidx.
  assert (Hi : set_primitivesizes sizes tm = indexed tm kind)
    by (unfold indexed; now rewrite Hidx).
  rewrite Hi.
  destruct (bitsize <=? 0);
    [apply (effect_indexed tm kind), AddType_t_effect |].
  destruct (bitsize >? primsize);
    [now apply effect_none
    | apply (effect_indexed tm kind), AddType_t_effect].
Qed.

Lemma AddType_str_effect tm name primitive :
  effect tm (AddType_str tm name primitive).2
    (AddType_str tm name primitive).1.
Proof.
  unfold AddType_str. destruct (primitives tm !! primitive);
    [apply AddType_effect | now apply effect_none].
Qed.

Lemma AddStruct_s_effect tm s :
  effect tm (AddStruct_s tm s).2 (AddStruct_s tm s).1.
Proof.
  unfold AddStruct_s.
  change (isDefined (set_laststruct (su_name s) tm) (su_name s))
    with (isDefined tm (su_name s)).
  destruct (isDefined tm (su_name s)) eqn:Hdef; simpl.
  - now apply effect_none.
  - apply (effect_aggregate _ _ s); [exact Hdef | reflexivity |].
    simpl. unfold map_insert_new.
    now destruct (isDefined_false _ _ Hdef) as (_ & _ & ->).
Qed.

Lemma AddUnion_u_effect tm u :
  effect tm (AddUnion_u tm u).2 (AddUnion_u tm u).1.
Proof. apply AddStruct_s_effect. Qed.

Lemma AddMember_m_effect tm parent member :
  effect tm (AddMember_m tm parent member).2 (AddMember_m tm parent member).1.
Proof.
  unfold AddMember_m. destruct (structs tm !! parent) as [s |] eqn:Hs; simpl.
  - now apply (effect_member _ _ parent s member).
  - now apply effect_none.
Qed.

(** What a returning [AddMember] call did. *)
Lemma AddMember_Ok tm parent name type offset arrsize b tm' :
  AddMember tm parent name type offset arrsize = Ok (b, tm') ->
  (b = false /\ tm' = tm) \/
  (b = true /\ exists s off,
     structs tm !! parent = Some s /\ 0 <= arrsize /\
     isDefined tm type = true /\
     (forall m, m ∈ members s -> m_name m <> name) /\
     (0 <= offset -> off = offset) /\
     tm' = push_member tm parent s (mkMember name type off arrsize)).
Proof.
  destruct b.
  2: { intros H. left. split; [reflexivity |].
       now apply AddMember_false_state in H. }
  unfold AddMember.
  destruct (structs tm !! parent) as [s |] eqn:Hs; [| discriminate].
  destruct (Z.ltb_spec arrsize 0) as [Ha | Ha]; [discriminate |].
  destruct (isDefined tm type) eqn:Hd; [| discriminate]. cbn [orb negb].
  destruct (existsb _ (members s)) eqn:Hex; [discriminate |].
  assert (Hfresh : forall m, m ∈ members s -> m_name m <> name).
  { intros m Hin Hn.
    assert (Ht : existsb (fun member => String.eqb (m_name member) name)
                   (members s) = true) by (apply has_member_named; eauto).
    congruence. }
  destruct (Z.ltb_spec offset 0) as [Ho | Ho].
  - intros H. apply bind_Ok in H as ([size stored] & _ & H).
    destruct (negb (length (members s) =? 0)%nat && (size =? 0));
      [discriminate |].
    apply bind_Ok in H as (typesize & _ & H).
    destruct stored as [pad |]; [| discriminate].
    injection H as <-. right. split; [reflexivity |].
    eexists s, _. split; [reflexivity |]. split; [assumption |].
    split; [reflexivity |]. split; [exact Hfresh |].
    split; [intros Hc; exfalso; lia | reflexivity].
  - intros H. injection H as <-. right. split; [reflexivity |].
    exists s, offset. split; [reflexivity |]. split; [assumption |].
    split; [reflexivity |]. split; [exact Hfresh |].
    split; reflexivity.
Qed.

Lemma AddMember_effect tm parent name type offset arrsize b tm' :
  AddMember tm parent name type offset arrsize = Ok (b, tm') ->
  effect tm tm' b.
Proof.
  intros H. apply AddMember_Ok in H
    as [[-> ->] | (-> & s & off & Hs & _ & _ & _ & _ & ->)].
  - now apply effect_none.
  - now apply (effect_member _ _ parent s (mkMember name type off arrsize)).
Qed.

Lemma Ok_pair {A B} (x : A * B) (a : A) (b : B) :
  Ok x = Ok (a, b) -> a = x.1 /\ b = x.2.
Proof. intros H. injection H as ->. auto. Qed.

Lemma exec_effect sizeof_ptr c tm b tm' :
  exec sizeof_ptr c tm = Ok (b, tm') -> effect tm tm' b.
Proof.
  destruct c; simpl; intros H;
    try (apply Ok_pair in H as [-> ->]).
  - apply AddType_str_effect.
  - apply AddType_effect.
  - apply AddType_t_effect.
  - apply AddStruct_s_effect.
  - apply AddStruct_s_effect.
  - apply AddUnion_u_effect.
  - apply AddUnion_u_effect.
  - eapply AddMember_effect, H.
  - eapply AddMember_effect, H.
  - apply AddMember_m_effect.
Qed.

(** ** Definitions are kept *)

Lemma extends_refl tm : extends tm tm.
Proof.
  split; [reflexivity |]. split; [auto |].
  intros n s Hs. exists s. repeat split; auto.
Qed.

Lemma extends_trans tm1 tm2 tm3 :
  extends tm1 tm2 -> extends tm2 tm3 -> extends tm1 tm3.
Proof.
  intros (HP1 & HT1 & HS1) (HP2 & HT2 & HS2).
  split; [congruence |]. split; [auto |].
  intros n s Hs.
  destruct (HS1 n s Hs) as (s2 & Hs2 & Hu2 & Ha2 & Hn2 & Hm2).
  destruct (HS2 n s2 Hs2) as (s3 & Hs3 & Hu3 & Ha3 & Hn3 & Hm3).
  exists s3. repeat split; try congruence. now transitivity (members s2).
Qed.

Lemma effect_extends tm tm' b :
  primitives tm' = primitives tm -> effect tm tm' b -> extends tm tm'.
Proof.
  intros HP H. split; [exact HP |].
  destruct H as [HT HS | t Hd HT HS | s Hd HT HS | p s m Hp HT HS];
    rewrite HT, HS.
  - split; [auto |]. intros n s Hs. exists s. repeat split; auto.
  - destruct (isDefined_false _ _ Hd) as (_ & Hn & _).
    split; [| intros n s Hs; exists s; repeat split; auto].
    intros n t' Ht'. rewrite lookup_insert_ne; [exact Ht' | congruence].
  - destruct (isDefined_false _ _ Hd) as (_ & _ & Hn).
    split; [auto |]. intros n s' Hs'. exists s'.
    rewrite lookup_insert_ne by congruence. repeat split; auto.
  - split; [auto |]. intros n s' Hs'.
    destruct (decide (p = n)) as [<- | Hne].
    + rewrite lookup_insert_eq. exists (with_member s m).
      assert (s' = s) as -> by congruence.
      repeat split; try reflexivity. now apply prefix_app_r.
    + rewrite lookup_insert_ne by assumption.
      exists s'. repeat split; auto.
Qed.

Lemma exec_primitives sizeof_ptr c tm b tm' :
  exec sizeof_ptr c tm = Ok (b, tm') -> primitives tm' = primitives tm.
Proof. intros H. apply exec_catalog in H. apply H. Qed.

Lemma run_cons sizeof_ptr c cs tm bs tm' :
  run sizeof_ptr (c :: cs) tm = Ok (bs, tm') ->
  exists b tm1 bs1,
    exec sizeof_ptr c tm = Ok (b, tm1) /\
    run sizeof_ptr cs tm1 = Ok (bs1, tm') /\ bs = b :: bs1.
Proof.
  cbn [run]. intros H.
  apply bind_Ok in H as ([b tm1] & Hc & H).
  apply bind_Ok in H as ([bs1 tm2] & Hcs & H).
  injection H as <- <-. eauto 6.
Qed.

(** A property that the constructor establishes and every call keeps
    holds on every state of the object. *)
Lemma run_invariant sizeof_ptr (I : TypeManager -> Prop) :
  (forall c tm b tm',
     I tm -> exec sizeof_ptr c tm = Ok (b, tm') -> I tm') ->
  forall cs tm bs tm',
    I tm -> run sizeof_ptr cs tm = Ok (bs, tm') -> I tm'.
Proof.
  intros Hstep cs. induction cs as [| c cs IH]; intros tm bs tm' HI H.
  - injection H as _ <-. exact HI.
  - apply run_cons in H as (b & tm1 & bs1 & Hc & Hcs & _).
    eapply IH; [eapply Hstep; eassumption | exact Hcs].
Qed.

Lemma run_extends_aux sizeof_ptr cs tm bs tm' :
  run sizeof_ptr cs tm = Ok (bs, tm') -> extends tm tm'.
Proof.
  intros H.
  apply (run_invariant sizeof_ptr (extends tm)) with (cs := cs) (tm := tm)
                                                     (bs := bs);
    [| apply extends_refl | exact H].
  intros c tm1 b tm2 Hext Hc.
  eapply extends_trans; [exact Hext |].
  eapply effect_extends; [eapply exec_primitives, Hc | eapply exec_effect, Hc].
Qed.

(** ** Names are unique *)

Lemma effect_names_disjoint tm tm' b :
  primitives tm' = primitives tm -> effect tm tm' b ->
  names_disjoint tm -> names_disjoint tm'.
Proof.
  intros HP H Hdis n. specialize (Hdis n) as [H1 H2]. rewrite HP.
  destruct H as [HT HS | t Hd HT HS | s Hd HT HS | p s m Hp HT HS];
    rewrite HT, HS.
  - auto.
  - destruct (isDefined_false _ _ Hd) as (HnP & HnT & HnS).
    destruct (decide (t_name t = n)) as [<- | Hne].
    + rewrite lookup_insert_eq. split; [| auto].
      intros [x Hx]. congruence.
    + rewrite lookup_insert_ne by assumption. auto.
  - destruct (isDefined_false _ _ Hd) as (HnP & HnT & HnS).
    destruct (decide (su_name s = n)) as [<- | Hne].
    + rewrite lookup_insert_eq. split; intros [x Hx]; congruence.
    + rewrite lookup_insert_ne by assumption. auto.
  - destruct (decide (p = n)) as [<- | Hne].
    + rewrite lookup_insert_eq. split; intros Hx.
      * destruct (H1 Hx) as [_ E]. congruence.
      * specialize (H2 Hx). congruence.
    + rewrite lookup_insert_ne by assumption. auto.
Qed.

Lemma effect_keyed_by_name tm tm' b :
  effect tm tm' b -> keyed_by_name tm -> keyed_by_name tm'.
Proof.
  intros H [HkT HkS].
  destruct H as [HT HS | t Hd HT HS | s Hd HT HS | p s m Hp HT HS];
    unfold keyed_by_name; rewrite HT, HS.
  - auto.
  - split; [| exact HkS]. intros n t'.
    destruct (decide (t_name t = n)) as [<- | Hne].
    + rewrite lookup_insert_eq. now intros [= <-].
    + rewrite lookup_insert_ne by assumption. apply HkT.
  - split; [exact HkT |]. intros n s'.
    destruct (decide (su_name s = n)) as [<- | Hne].
    + rewrite lookup_insert_eq. now intros [= <-].
    + rewrite lookup_insert_ne by assumption. apply HkS.
  - split; [exact HkT |]. intros n s'.
    destruct (decide (p = n)) as [<- | Hne].
    + rewrite lookup_insert_eq. intros [= <-]. simpl. now apply HkS.
    + rewrite lookup_insert_ne by assumption. apply HkS.
Qed.

Lemma new_types sizeof_ptr : types (TypeManager_new sizeof_ptr) = ∅.
Proof. reflexivity. Qed.

Lemma new_structs sizeof_ptr : structs (TypeManager_new sizeof_ptr) = ∅.
Proof. reflexivity. Qed.

Lemma reachable_refl sizeof_ptr : reachable sizeof_ptr (TypeManager_new sizeof_ptr).
Proof. exists [], []. reflexivity. Qed.

(** X1.  A call that returns leaves the spellings alone and does one
    of four things to the types and aggregates: nothing, when it returns
    false; or, when it returns true, it adds one type under a name that
    was not defined, adds one aggregate under such a name, or appends
    one member to one aggregate. *)
Theorem call_effect (sizeof_ptr : Z) (c : call) (tm : TypeManager)
    (b : bool) (tm' : TypeManager) :
  exec sizeof_ptr c tm = Ok (b, tm') ->
  primitives tm' = primitives tm /\ effect tm tm' b.
Proof.
  intros H. split; [eapply exec_primitives, H | eapply exec_effect, H].
Qed.

Lemma call_effect_witness :
  exec 8 (CAddType "word" Int32 16 "") (TypeManager_new 8)
  = Ok (true, (AddType (TypeManager_new 8) "word" Int32 16 "").2) /\
  effect (TypeManager_new 8)
    (AddType (TypeManager_new 8) "word" Int32 16 "").2 true.
Proof.
  assert (H : exec 8 (CAddType "word" Int32 16 "") (TypeManager_new 8)
              = Ok (true, (AddType (TypeManager_new 8) "word" Int32 16 "").2))
    by (vm_compute; reflexivity).
  split; [exact H |].
  exact (proj2 (call_effect 8 _ _ _ _ H)).
Defined.

(** X2.  Whatever calls a client makes, every definition stays: a type
    keeps its record, an aggregate keeps its kind, alignment and name,
    and the members it had remain its first members, in order. *)
Theorem definitions_are_kept (sizeof_ptr : Z) (cs : list call)
    (tm : TypeManager) (bs : list bool) (tm' : TypeManager) :
  run sizeof_ptr cs tm = Ok (bs, tm') -> extends tm tm'.
Proof. apply run_extends_aux. Qed.

Lemma definitions_are_kept_witness :
  run 8 [CAddStruct "s" 4; CAddMember "s" "b" "int8" auto_offset 0]
    (state_after 8 struct_a)
  = Ok ([false; true],
        state_after 8 (struct_a ++
          [CAddStruct "s" 4; CAddMember "s" "b" "int8" auto_offset 0])) /\
  extends (state_after 8 struct_a)
    (state_after 8 (struct_a ++
       [CAddStruct "s" 4; CAddMember "s" "b" "int8" auto_offset 0])).
Proof.
  assert (Hrun :
    run 8 [CAddStruct "s" 4; CAddMember "s" "b" "int8" auto_offset 0]
      (state_after 8 struct_a)
    = Ok ([false; true],
          state_after 8 (struct_a ++
            [CAddStruct "s" 4; CAddMember "s" "b" "int8" auto_offset 0])))
    by (vm_compute; reflexivity).
  split; [exact Hrun |].
  exact (definitions_are_kept 8 _ _ _ _ Hrun).
Defined.

(** X3.  On every state of a [TypeManager] object no name is defined
    twice (a spelling is neither a type nor an aggregate name, a type
    name is not an aggregate name), and every type and aggregate is
    stored under the name its record carries. *)
Theorem names_are_unique (sizeof_ptr : Z) (tm : TypeManager) :
  reachable sizeof_ptr tm -> names_disjoint tm /\ keyed_by_name tm.
Proof.
  intros (cs & bs & H).
  apply (run_invariant sizeof_ptr
           (fun tm => names_disjoint tm /\ keyed_by_name tm))
    with (cs := cs) (tm := TypeManager_new sizeof_ptr) (bs := bs);
    [| | exact H].
  - intros c tm1 b tm2 [Hd Hk] Hc. split.
    + eapply effect_names_disjoint;
        [eapply exec_primitives, Hc | eapply exec_effect, Hc | exact Hd].
    + eapply effect_keyed_by_name; [eapply exec_effect, Hc | exact Hk].
  - split.
    + intros n. rewrite new_types, new_structs, !lookup_empty.
      split; [auto | intros [x Hx]; discriminate].
    + split; intros n x; rewrite ?new_types, ?new_structs, lookup_empty;
        discriminate.
Qed.

Lemma names_are_unique_witness :
  reachable 8 (state_after 8 struct_ab) /\
  names_disjoint (state_after 8 struct_ab) /\
  keyed_by_name (state_after 8 struct_ab).
Proof.
  assert (Hr : reachable 8 (state_after 8 struct_ab)).
  { exists struct_ab, [true; true; true]. vm_compute. reflexivity. }
  split; [exact Hr |]. exact (names_are_unique 8 _ Hr).
Defined.

(** ** Sizes of primitives and aliases *)

Lemma getSizeof_primitive fuel tm spelling kind depth :
  primitives tm !! spelling = Some kind -> depth < 100 ->
  getSizeof (S fuel) tm spelling depth
  = Ok (Int.div (natural_width tm kind) 8, Some 0).
Proof.
  intros HP Hd. cbn [getSizeof].
  destruct (Z.geb_spec depth 100); [lia |]. now rewrite HP.
Qed.

Lemma kind_bits_bytes sizeof_ptr kind :
  exists bytes, kind_bits sizeof_ptr kind = 8 * bytes /\
                Int.div (kind_bits sizeof_ptr kind) 8 = bytes /\
                Z.rem (kind_bits sizeof_ptr kind) 8 = 0.
Proof.
  destruct kind; simpl;
    try (eexists; split; [| split]; [| reflexivity | reflexivity];
         reflexivity);
    exists sizeof_ptr; unfold Int.div;
    (split; [lia |]; split;
       [apply Z.quot_mul; lia | apply Z.rem_mul; lia]).
Qed.

Lemma reachable_spelled_width sizeof_ptr tm spelling kind :
  reachable sizeof_ptr tm -> primitives tm !! spelling = Some kind ->
  kind <> Uint16 /\ natural_width tm kind = kind_bits sizeof_ptr kind.
Proof.
  intros Hr Hk.
  assert (Hne : kind <> Uint16).
  { destruct (reachable_catalog _ _ Hr) as [HP _]. rewrite HP in Hk.
    exact (new_spelled_kinds sizeof_ptr spelling kind Hk). }
  split; [exact Hne |].
  rewrite (reachable_natural_width sizeof_ptr) by assumption.
  now destruct (decide (kind = Uint16)).
Qed.

Lemma Sizeof_spelling_aux sizeof_ptr tm spelling kind :
  reachable sizeof_ptr tm -> primitives tm !! spelling = Some kind ->
  Sizeof tm spelling = Ok (Int.div (kind_bits sizeof_ptr kind) 8).
Proof.
  intros Hr Hk. unfold Sizeof, depth_fuel.
  rewrite (getSizeof_primitive _ _ _ kind) by (assumption || lia).
  destruct (reachable_spelled_width _ _ _ _ Hr Hk) as [_ ->]. reflexivity.
Qed.

(** X4.  On every state of a [TypeManager] object, the size of a
    primitive spelling is the width of its kind in bytes: the spelling
    is never registered under [Uint16], and 8 times its size is the bit
    width of the kind, whatever types and aggregates are defined. *)
Theorem Sizeof_spelling (sizeof_ptr : Z) (tm : TypeManager)
    (spelling : string) (kind : Primitive) :
  reachable sizeof_ptr tm -> primitives tm !! spelling = Some kind ->
  kind <> Uint16 /\
  exists bytes, Sizeof tm spelling = Ok bytes /\
                8 * bytes = kind_bits sizeof_ptr kind.
Proof.
  intros Hr Hk.
  split; [exact (proj1 (reachable_spelled_width _ _ _ _ Hr Hk)) |].
  destruct (kind_bits_bytes sizeof_ptr kind) as (bytes & Hb & Hq & _).
  exists bytes. split; [| lia].
  rewrite (Sizeof_spelling_aux sizeof_ptr _ _ kind) by assumption.
  now rewrite Hq.
Qed.

Lemma Sizeof_spelling_witness :
  reachable 4 (state_after 4 struct_ab) /\
  primitives (state_after 4 struct_ab) !! "size_t" = Some Duint /\
  exists bytes, Sizeof (state_after 4 struct_ab) "size_t" = Ok bytes /\
                8 * bytes = 32.
Proof.
  assert (Hr : reachable 4 (state_after 4 struct_ab)).
  { exists struct_ab, [true; true; true]. vm_compute. reflexivity. }
  assert (Hk : primitives (state_after 4 struct_ab) !! "size_t" = Some Duint)
    by (vm_compute; reflexivity).
  split; [exact Hr |]. split; [exact Hk |].
  exact (proj2 (Sizeof_spelling 4 _ "size_t" Duint Hr Hk)).
Defined.

(** X5.  On every state of a [TypeManager] object, [AddType] with a
    spelling returns true exactly when the name is not defined and the
    spelling is a primitive spelling; the alias it stores has the kind
    and the full width of that primitive, and its size is the size of
    the spelling. *)
Theorem AddType_str_alias (sizeof_ptr : Z) (tm : TypeManager)
    (name spelling : string) :
  reachable sizeof_ptr tm ->
  ((AddType_str tm name spelling).1 = true <->
   isDefined tm name = false /\ is_Some (primitives tm !! spelling)) /\
  ((AddType_str tm name spelling).1 = true ->
   exists kind,
     primitives tm !! spelling = Some kind /\
     types (AddType_str tm name spelling).2 !! name
     = Some (mkType name kind (kind_bits sizeof_ptr kind) "") /\
     Sizeof (AddType_str tm name spelling).2 name = Sizeof tm spelling).
Proof.
  intros Hr. unfold AddType_str.
  destruct (primitives tm !! spelling) as [kind |] eqn:Hk.
  2: { simpl. split; [split; [discriminate | intros [_ [x Hx]]; discriminate]
                      | discriminate]. }
  destruct (isDefined tm name) eqn:Hdef.
  { unfold AddType. rewrite Hdef. simpl.
    split; [split; [discriminate | intros [E _]; discriminate E]
           | discriminate]. }
  rewrite AddType_fresh by assumption. simpl.
  split; [split; [eauto | reflexivity] |].
  intros _. exists kind. split; [reflexivity |].
  destruct (reachable_spelled_width _ _ _ _ Hr Hk) as [_ Hw]. rewrite Hw.
  destruct (isDefined_false _ _ Hdef) as (HP & _ & _).
  split; [apply lookup_insert_eq |].
  unfold indexed. rewrite Sizeof_stored_alias by exact HP.
  rewrite (Sizeof_spelling_aux sizeof_ptr _ _ kind) by assumption.
  destruct (kind_bits_bytes sizeof_ptr kind) as (bytes & _ & _ & ->).
  reflexivity.
Qed.

Lemma AddType_str_alias_witness :
  reachable 8 (TypeManager_new 8) /\
  (AddType_str (TypeManager_new 8) "DWORD" "unsigned int").1 = true /\
  Sizeof (AddType_str (TypeManager_new 8) "DWORD" "unsigned int").2 "DWORD"
  = Sizeof (TypeManager_new 8) "unsigned int".
Proof.
  pose proof (reachable_refl 8) as Hr.
  destruct (AddType_str_alias 8 (TypeManager_new 8) "DWORD" "unsigned int" Hr)
    as [Hiff Hsize].
  assert (Hok : (AddType_str (TypeManager_new 8) "DWORD" "unsigned int").1
                = true).
  { apply Hiff. split; [vm_compute; reflexivity |].
    exists Uint32. vm_compute. reflexivity. }
  split; [exact Hr |]. split; [exact Hok |].
  destruct (Hsize Hok) as (kind & _ & _ & H). exact H.
Defined.

(** X6.  The size of a type alias is its bit size divided by 8 and
    rounded up, for every bit size from 0 up to the largest that can
    be rounded without overflow. *)
Theorem Sizeof_alias_rounds_up (tm : TypeManager) (name : string)
    (t : Type_) :
  primitives tm !! name = None -> types tm !! name = Some t ->
  0 <= t_bitsize t <= Int.max_int - 8 ->
  Sizeof tm name = Ok ((t_bitsize t + 7) / 8).
Proof.
  intros HP HT Hb. unfold Sizeof, depth_fuel.
  rewrite (getSizeof_type _ _ _ _ t) by (assumption || lia).
  cbn [mbind outcome_bind fst]. f_equal. unfold Int.div.
  rewrite Z.rem_mod_nonneg by lia.
  pose proof (Z.div_mod (t_bitsize t) 8 ltac:(lia)) as Hdm.
  pose proof (Z.mod_pos_bound (t_bitsize t) 8 ltac:(lia)) as Hm.
  set (q := t_bitsize t / 8) in *. set (r := t_bitsize t mod 8) in *.
  destruct (Z.eqb_spec r 0) as [E | E].
  - rewrite Z.quot_div_nonneg by lia. fold q.
    replace (t_bitsize t + 7) with (q * 8 + 7) by lia.
    rewrite Z.div_add_l, Z.div_small by lia. lia.
  - unfold Int.add, Int.sub.
    rewrite (wrap_in_range (8 - r))
      by (unfold Int.in_range, Int.min_int, Int.max_int; lia).
    rewrite wrap_in_range
      by (unfold Int.in_range, Int.min_int, Int.max_int in *; lia).
    rewrite Z.quot_div_nonneg by lia.
    replace (t_bitsize t + (8 - r)) with ((q + 1) * 8) by lia.
    replace (t_bitsize t + 7) with ((q + 1) * 8 + (r - 1)) by lia.
    rewrite Z.div_mul, Z.div_add_l, Z.div_small by lia. lia.
Qed.

Lemma Sizeof_alias_rounds_up_witness :
  Sizeof (AddType (TypeManager_new 8) "bits" Int32 17 "").2 "bits" = Ok 3.
Proof.
  apply (Sizeof_alias_rounds_up _ "bits" (mkType "bits" Int32 17 ""));
    [vm_compute; reflexivity | vm_compute; reflexivity
    | simpl; unfold Int.max_int; lia].
Defined.

(** ** Rounding and the size of a struct *)

Lemma round_up_bounds size align :
  0 < align -> 0 <= size ->
  (align | round_up size align) /\
  size <= round_up size align < size + align /\
  forall k, size <= k * align -> round_up size align <= k * align.
Proof.
  intros Ha Hs. unfold round_up.
  pose proof (Z.div_mod (size + align - 1) align ltac:(lia)) as Hdm.
  pose proof (Z.mod_pos_bound (size + align - 1) align Ha) as Hm.
  set (q := (size + align - 1) / align) in *.
  split; [exists q; lia |]. split; [lia |].
  intros k Hk.
  assert (Hq : q <= k).
  { destruct (Z.le_gt_cases q k) as [Hle | Hgt]; [exact Hle | exfalso].
    assert (align * (k + 1) <= align * q)
      by (apply Z.mul_le_mono_nonneg_l; lia).
    lia. }
  assert (align * q <= align * k) by (apply Z.mul_le_mono_nonneg_l; lia).
  lia.
Qed.

(** X7.  Short of overflow, the rounding step of [getSizeof] on a
    positive alignment returns the least multiple of the alignment that
    is not below the size, less than one alignment above it, and stores
    the distance to it as the padding. *)
Theorem rounding_gives_least_multiple (size align : Z) :
  0 < align -> 0 <= size -> round_up size align <= Int.max_int ->
  align_up size align
  = Ok (round_up size align, Some (round_up size align - size)) /\
  (align | round_up size align) /\
  size <= round_up size align < size + align /\
  forall k, size <= k * align -> round_up size align <= k * align.
Proof.
  intros Ha Hs Hmax.
  split; [now apply align_up_round_up | now apply round_up_bounds].
Qed.

Lemma rounding_gives_least_multiple_witness :
  align_up 13 8 = Ok (16, Some 3) /\ (8 | 16).
Proof.
  destruct (rounding_gives_least_multiple 13 8) as (Heq & Hdiv & _);
    [lia | lia | vm_compute; discriminate |].
  split; [exact Heq | exact Hdiv].
Defined.

Lemma getSizeof_struct fuel tm name depth s l r stored :
  primitives tm !! name = None -> types tm !! name = None ->
  structs tm !! name = Some s -> isunion s = false ->
  last (members s) = Some l -> depth < 100 ->
  getSizeof fuel tm (m_type l) (depth + 1) = Ok (r, stored) ->
  getSizeof (S fuel) tm name depth
  = if Int.mul r (arr_count l) =? 0 then Ok (0, Some 0)
    else align_up (Int.add (m_offset l) (Int.mul r (arr_count l)))
           (alignment s).
Proof.
  intros HP HT HS Hu Hl Hd Hr. cbn [getSizeof].
  destruct (Z.geb_spec depth 100); [lia |].
  rewrite HP, HT, HS, Hu.
  destruct (members s) as [| m0 ms] eqn:E; [discriminate |].
  change (length (m0 :: ms) =? 0)%nat with false. cbv iota.
  unfold struct_last. rewrite Hl, Hr. cbn [mbind outcome_bind fst].
  now destruct (Int.mul r (arr_count l) =? 0).
Qed.

Lemma getSizeof_struct_round_up fuel tm name depth s l r stored :
  primitives tm !! name = None -> types tm !! name = None ->
  structs tm !! name = Some s -> isunion s = false ->
  last (members s) = Some l -> depth < 100 ->
  getSizeof fuel tm (m_type l) (depth + 1) = Ok (r, stored) ->
  0 < r * arr_count l -> 0 <= m_offset l -> 0 < alignment s ->
  round_up (m_offset l + r * arr_count l) (alignment s) <= Int.max_int ->
  getSizeof (S fuel) tm name depth
  = Ok (round_up (m_offset l + r * arr_count l) (alignment s),
        Some (round_up (m_offset l + r * arr_count l) (alignment s)
              - (m_offset l + r * arr_count l))).
Proof.
  intros HP HT HS Hu Hl Hd Hr Hpos Hoff Hal Hmax.
  destruct (round_up_bounds (m_offset l + r * arr_count l) (alignment s))
    as (_ & [Hlo _] & _); [lia | lia |].
  assert (Hmul : Int.mul r (arr_count l) = r * arr_count l).
  { apply wrap_in_range.
    unfold Int.in_range, Int.min_int, Int.max_int in *. lia. }
  assert (Hadd : Int.add (m_offset l) (r * arr_count l)
                 = m_offset l + r * arr_count l).
  { apply wrap_in_range.
    unfold Int.in_range, Int.min_int, Int.max_int in *. lia. }
  rewrite (getSizeof_struct fuel tm name depth s l r stored) by assumption.
  rewrite Hmul.
  destruct (Z.eqb_spec (r * arr_count l) 0); [lia |].
  rewrite Hadd. apply align_up_round_up; lia.
Qed.

(** X8.  The size of a struct comes from its last member alone: it is
    0 when that member's size times its element count is 0, and
    otherwise the member's offset plus that product, rounded up to the
    alignment of the struct; short of overflow and on a positive
    alignment that is the next multiple of the alignment. *)
Theorem struct_size_from_last_member (fuel : nat) (tm : TypeManager)
    (name : string) (depth : Z) (s : StructUnion) (l : Member) (r : Z)
    (stored : option Z) :
  primitives tm !! name = None -> types tm !! name = None ->
  structs tm !! name = Some s -> isunion s = false ->
  last (members s) = Some l -> depth < 100 ->
  getSizeof fuel tm (m_type l) (depth + 1) = Ok (r, stored) ->
  (Int.mul r (arr_count l) = 0 ->
   getSizeof (S fuel) tm name depth = Ok (0, Some 0)) /\
  (Int.mul r (arr_count l) <> 0 ->
   getSizeof (S fuel) tm name depth
   = align_up (Int.add (m_offset l) (Int.mul r (arr_count l)))
       (alignment s)) /\
  (0 < r * arr_count l -> 0 <= m_offset l -> 0 < alignment s ->
   round_up (m_offset l + r * arr_count l) (alignment s) <= Int.max_int ->
   getSizeof (S fuel) tm name depth
   = Ok (round_up (m_offset l + r * arr_count l) (alignment s),
         Some (round_up (m_offset l + r * arr_count l) (alignment s)
               - (m_offset l + r * arr_count l)))).
Proof.
  intros HP HT HS Hu Hl Hd Hr.
  pose proof (getSizeof_struct fuel tm name depth s l r stored
                HP HT HS Hu Hl Hd Hr) as Heq.
  split; [| split].
  - intros E. rewrite Heq, E. reflexivity.
  - intros E. rewrite Heq.
    now destruct (Z.eqb_spec (Int.mul r (arr_count l)) 0).
  - intros Hpos Hoff Hal Hmax.
    now apply (getSizeof_struct_round_up fuel tm name depth s l r stored).
Qed.

Lemma struct_size_from_last_member_witness :
  getSizeof 101
    (state_after 8 [CAddStruct "buf" 4; CAddMember "buf" "arr" "int8" 0 10])
    "buf" 0 = Ok (12, Some 2).
Proof.
  destruct (struct_size_from_last_member 100
              (state_after 8
                 [CAddStruct "buf" 4; CAddMember "buf" "arr" "int8" 0 10])
              "buf" 0 (mkStructUnion false 4 "buf" [mkMember "arr" "int8" 0 10])
              (mkMember "arr" "int8" 0 10) 1 (Some 0))
    as (_ & _ & H);
    [vm_compute; reflexivity | vm_compute; reflexivity
    | vm_compute; reflexivity | reflexivity
    | reflexivity | lia | vm_compute; reflexivity |].
  apply H;
    [vm_compute; reflexivity | vm_compute; discriminate
    | vm_compute; reflexivity | vm_compute; discriminate].
Defined.

(** ** Members *)

Lemma push_member_lookup_ne tm parent s m n :
  parent <> n ->
  structs (push_member tm parent s m) !! n = structs tm !! n.
Proof. intros Hne. unfold push_member. simpl. now apply lookup_insert_ne. Qed.

(** X9.  After [AddMember] has returned true, the aggregate has the
    new member as its last one, with the given name, type and array
    count (and the given offset when it is not negative), the other
    aggregates are as they were, and every further [AddMember] of that
    name to that aggregate returns false and changes nothing. *)
Theorem member_names_are_not_reused (tm : TypeManager)
    (parent name type : string) (offset arrsize : Z) (tm' : TypeManager) :
  AddMember tm parent name type offset arrsize = Ok (true, tm') ->
  (exists s off,
     structs tm !! parent = Some s /\
     structs tm' !! parent
     = Some (with_member s (mkMember name type off arrsize)) /\
     (0 <= offset -> off = offset)) /\
  (forall n, n <> parent -> structs tm' !! n = structs tm !! n) /\
  (forall type' offset' arrsize',
     AddMember tm' parent name type' offset' arrsize' = Ok (false, tm')).
Proof.
  intros H. apply AddMember_Ok in H
    as [[E _] | (_ & s & off & Hs & Ha & Hd & Hfresh & Hoff & ->)];
    [discriminate E |].
  split; [| split].
  - exists s, off. split; [exact Hs |].
    split; [apply push_member_lookup | exact Hoff].
  - intros n Hn. apply push_member_lookup_ne. congruence.
  - intros type' offset' arrsize'. unfold AddMember.
    rewrite push_member_lookup.
    destruct ((arrsize' <? 0) || negb (isDefined _ type')); [reflexivity |].
    cbn [members].
    rewrite existsb_app. cbn [existsb m_name]. rewrite String.eqb_refl.
    now rewrite orb_true_r.
Qed.

Lemma member_names_are_not_reused_witness :
  AddMember (state_after 8 struct_a) "s" "b" "int64" auto_offset 0
  = Ok (true, state_after 8 struct_ab) /\
  AddMember (state_after 8 struct_ab) "s" "b" "int8" 0 0
  = Ok (false, state_after 8 struct_ab).
Proof.
  assert (H : AddMember (state_after 8 struct_a) "s" "b" "int64" auto_offset 0
              = Ok (true, state_after 8 struct_ab))
    by (vm_compute; reflexivity).
  split; [exact H |].
  apply (member_names_are_not_reused _ _ _ _ _ _ _ H).
Defined.

(** ** The stored padding and undefined remainders *)

Lemma align_up_stores size align r stored :
  align_up size align = Ok (r, stored) -> exists pad, stored = Some pad.
Proof.
  unfold align_up. intros H. apply bind_Ok in H as (m & _ & H).
  destruct (m =? 0); injection H as _ <-; eauto.
Qed.

Lemma getSizeof_stores fuel tm type depth size stored :
  depth < 100 -> getSizeof fuel tm type depth = Ok (size, stored) ->
  exists pad, stored = Some pad.
Proof.
  intros Hd. destruct fuel as [| fuel]; [discriminate |]. cbn [getSizeof].
  destruct (Z.geb_spec depth 100); [lia |].
  destruct (primitives tm !! type); [intros [= _ <-]; eauto |].
  destruct (types tm !! type); [intros [= _ <-]; eauto |].
  destruct (structs tm !! type) as [s |]; [| intros [= _ <-]; eauto].
  destruct (length (members s) =? 0)%nat; [intros [= _ <-]; eauto |].
  intros Heq. apply bind_Ok in Heq as ([sz |] & _ & Heq);
    [eapply align_up_stores, Heq | injection Heq as _ <-; eauto].
Qed.

Lemma Sizeof_returns tm type :
  aligned tm -> exists size, Sizeof tm type = Ok size.
Proof.
  intros Hal. unfold Sizeof.
  destruct (getSizeof_returns depth_fuel tm type 0 Hal) as [r ->];
    [unfold depth_fuel; lia | cbn [mbind outcome_bind]; eauto].
Qed.

Lemma AddMember_returns tm parent name type offset arrsize :
  aligned tm ->
  exists b tm', AddMember tm parent name type offset arrsize = Ok (b, tm').
Proof.
  intros Hal. unfold AddMember.
  destruct (structs tm !! parent) as [s |]; [| eauto].
  destruct ((arrsize <? 0) || negb (isDefined tm type)); [eauto |].
  destruct (existsb _ (members s)); [eauto |].
  destruct (offset <? 0); [| eauto].
  destruct (getSizeof_returns depth_fuel tm parent 0 Hal) as [[size st] Hg];
    [unfold depth_fuel; lia |].
  rewrite Hg. cbn [mbind outcome_bind].
  destruct (negb (length (members s) =? 0)%nat && (size =? 0)); [eauto |].
  destruct (Sizeof_returns tm type Hal) as [typesize ->].
  cbn [mbind outcome_bind].
  destruct (getSizeof_stores depth_fuel tm parent 0 size st ltac:(lia) Hg)
    as [pad ->]. eauto.
Qed.

(** X10.  [AddMember] reads its local [alignment] only after
    [getSizeof] has stored into it: every [getSizeof] call below the
    depth cap that returns has stored a padding.  So the only way an
    [AddMember] call can fail to return is an undefined remainder in
    the size of the parent or of the member's type, which needs an
    aggregate whose alignment is not positive. *)
Theorem alignment_is_stored_before_use (tm : TypeManager)
    (parent name type : string) (offset arrsize : Z) :
  (forall fuel t depth size stored,
     depth < 100 -> getSizeof fuel tm t depth = Ok (size, stored) ->
     exists pad, stored = Some pad) /\
  (AddMember tm parent name type offset arrsize = Crash ->
   offset < 0 /\ ~ aligned tm /\
   (getSizeof depth_fuel tm parent 0 = Crash \/ Sizeof tm type = Crash)) /\
  (aligned tm ->
   exists b tm', AddMember tm parent name type offset arrsize = Ok (b, tm')).
Proof.
  split; [intros fuel t depth size stored; apply getSizeof_stores |].
  split; [| apply AddMember_returns].
  intros Hc.
  assert (Hna : ~ aligned tm).
  { intros Hal.
    destruct (AddMember_returns tm parent name type offset arrsize Hal)
      as (b & tm' & E). congruence. }
  revert Hc. unfold AddMember.
  destruct (structs tm !! parent) as [s |]; [| discriminate].
  destruct ((arrsize <? 0) || negb (isDefined tm type)); [discriminate |].
  destruct (existsb _ (members s)); [discriminate |].
  destruct (Z.ltb_spec offset 0) as [Ho | Ho]; [| discriminate].
  intros Hc. split; [exact Ho |]. split; [exact Hna |].
  destruct (getSizeof depth_fuel tm parent 0) as [[size st] | |] eqn:Hg;
    cbn [mbind outcome_bind] in Hc; [| now left | discriminate].
  destruct (negb (length (members s) =? 0)%nat && (size =? 0));
    [discriminate |].
  destruct (Sizeof tm type) as [typesize | |];
    cbn [mbind outcome_bind] in Hc; [| now right | discriminate].
  destruct (getSizeof_stores depth_fuel tm parent 0 size st ltac:(lia) Hg)
    as [pad ->].
  discriminate.
Qed.

Lemma alignment_is_stored_before_use_witness :
  aligned (state_after 8 struct_a) /\
  exists b tm',
    AddMember (state_after 8 struct_a) "s" "b" "int64" auto_offset 0
    = Ok (b, tm').
Proof.
  assert (Hal : aligned (state_after 8 struct_a)).
  { intros n s Hs.
    assert (Hn : forall k v, structs (state_after 8 struct_a) !! k = Some v ->
                             alignment v = 8).
    { intros k v Hk.
      refine (map_Forall_lookup_1 (fun _ v => alignment v = 8) _ k v _ Hk).
      apply (bool_decide_unpack _). vm_compute. exact I. }
    rewrite (Hn n s Hs). lia. }
  split; [exact Hal |].
  destruct (alignment_is_stored_before_use (state_after 8 struct_a)
              "s" "b" "int64" auto_offset 0) as (_ & _ & H).
  exact (H Hal).
Defined.

(** ** Clients that never meet an undefined remainder *)

Lemma aligned_insert tm tm' n s :
  aligned tm -> 0 < alignment s ->
  structs tm' = <[n := s]> (structs tm) -> aligned tm'.
Proof.
  intros Hal Hs E k v. rewrite E.
  destruct (decide (n = k)) as [<- | Hne].
  - rewrite lookup_insert_eq. now intros [= <-].
  - rewrite lookup_insert_ne by assumption. apply Hal.
Qed.

Lemma aligned_same tm tm' :
  aligned tm -> structs tm' = structs tm -> aligned tm'.
Proof. intros Hal E k v. rewrite E. apply Hal. Qed.

Lemma AddStruct_s_aligned tm s :
  aligned tm -> 0 < alignment s -> aligned (AddStruct_s tm s).2.
Proof.
  intros Hal Hs. unfold AddStruct_s. destruct (isDefined _ _); simpl.
  - now apply (aligned_same tm).
  - unfold map_insert_new. simpl.
    destruct (structs tm !! su_name s);
      [now apply (aligned_same tm)
      | now apply (aligned_insert tm _ (su_name s) s)].
Qed.

Lemma AddType_t_structs tm t : structs (AddType_t tm t).2 = structs tm.
Proof. unfold AddType_t. now destruct (isDefined tm (t_name t)). Qed.

Lemma AddType_structs tm name kind bitsize pointto :
  structs (AddType tm name kind bitsize pointto).2 = structs tm.
Proof.
  unfold AddType. destruct (isDefined tm name); [reflexivity |].
  destruct (map_index kind (primitivesizes tm)) as [primsize sizes].
  destruct (bitsize <=? 0);
    [now rewrite AddType_t_structs |].
  destruct (bitsize >? primsize);
    [reflexivity | now rewrite AddType_t_structs].
Qed.

Lemma AddType_str_structs tm name primitive :
  structs (AddType_str tm name primitive).2 = structs tm.
Proof.
  unfold AddType_str. destruct (primitives tm !! primitive);
    [apply AddType_structs | reflexivity].
Qed.

Lemma exec_aligned sizeof_ptr c tm b tm' :
  0 < sizeof_ptr -> call_aligned c -> aligned tm ->
  exec sizeof_ptr c tm = Ok (b, tm') -> aligned tm'.
Proof.
  intros Hp Hc Hal H.
  destruct c; simpl in H, Hc;
    try (apply Ok_pair in H as [_ ->]).
  - apply (aligned_same tm); [exact Hal | apply AddType_str_structs].
  - apply (aligned_same tm); [exact Hal | apply AddType_structs].
  - apply (aligned_same tm); [exact Hal | apply AddType_t_structs].
  - unfold AddStruct. apply AddStruct_s_aligned; [exact Hal |].
    simpl. destruct (Z.gtb_spec align 0); simpl; lia.
  - now apply AddStruct_s_aligned.
  - unfold AddUnion. apply AddStruct_s_aligned; [exact Hal |].
    simpl. destruct (Z.gtb_spec align 0); simpl; lia.
  - now apply AddStruct_s_aligned.
  - apply AddMember_Ok in H
      as [[_ ->] | (_ & s & off & Hs & _ & _ & _ & _ & ->)];
      [exact Hal |].
    eapply aligned_insert; [exact Hal | | reflexivity].
    simpl. eapply Hal, Hs.
  - apply AddMember_Ok in H
      as [[_ ->] | (_ & s & off & Hs & _ & _ & _ & _ & ->)];
      [exact Hal |].
    eapply aligned_insert; [exact Hal | | reflexivity].
    simpl. eapply Hal, Hs.
  - unfold AddMember_m. destruct (structs tm !! parent) as [s |] eqn:Hs;
      simpl; [| exact Hal].
    eapply aligned_insert; [exact Hal | | reflexivity].
    simpl. eapply Hal, Hs.
Qed.

Lemma exec_returns sizeof_ptr c tm :
  aligned tm -> exists b tm', exec sizeof_ptr c tm = Ok (b, tm').
Proof.
  intros Hal. destruct c; simpl;
    try (apply AddMember_returns, Hal);
    match goal with
    | |- exists b tm', Ok ?x = _ => exists x.1, x.2; now destruct x
    end.
Qed.

Lemma run_returns sizeof_ptr cs tm :
  0 < sizeof_ptr -> Forall call_aligned cs -> aligned tm ->
  exists bs tm', run sizeof_ptr cs tm = Ok (bs, tm') /\ aligned tm'.
Proof.
  intros Hp Hcs. revert tm.
  induction Hcs as [| c cs Hc _ IH]; intros tm Hal; [simpl; eauto |].
  destruct (exec_returns sizeof_ptr c tm Hal) as (b & tm1 & Hc1).
  destruct (IH tm1) as (bs & tm2 & Hrun & Hal2);
    [eapply exec_aligned; eassumption |].
  exists (b :: bs), tm2. split; [| exact Hal2].
  cbn [run]. rewrite Hc1. cbn [mbind outcome_bind]. rewrite Hrun. reflexivity.
Qed.

(** X11.  On a target with a positive pointer size, a client that
    never passes an aggregate record of alignment 0 or less gets an
    answer from every call: each call of the program returns, every
    aggregate of the resulting state has a positive alignment, and
    [Sizeof] returns a size for every name. *)
Theorem aligned_clients_always_get_answers (sizeof_ptr : Z)
    (cs : list call) :
  0 < sizeof_ptr -> Forall call_aligned cs ->
  exists bs tm,
    run sizeof_ptr cs (TypeManager_new sizeof_ptr) = Ok (bs, tm) /\
    length bs = length cs /\ aligned tm /\
    forall type, exists size, Sizeof tm type = Ok size.
Proof.
  intros Hp Hcs.
  destruct (run_returns sizeof_ptr cs (TypeManager_new sizeof_ptr) Hp Hcs)
    as (bs & tm & Hrun & Hal).
  { intros n s. rewrite new_structs, lookup_empty. discriminate. }
  exists bs, tm. split; [exact Hrun |]. split; [| split; [exact Hal |]].
  - clear Hcs Hal. revert bs tm Hrun. generalize (TypeManager_new sizeof_ptr).
    induction cs as [| c cs IH]; intros tm0 bs tm H.
    + now injection H as <- _.
    + apply run_cons in H as (b & tm1 & bs1 & _ & Hcs & ->).
      simpl. f_equal. eapply IH, Hcs.
  - intros type. now apply Sizeof_returns.
Qed.

Lemma aligned_clients_always_get_answers_witness :
  0 < 8 /\ Forall call_aligned list_node /\
  exists bs tm,
    run 8 list_node (TypeManager_new 8) = Ok (bs, tm) /\
    length bs = length list_node /\ aligned tm /\
    forall type, exists size, Sizeof tm type = Ok size.
Proof.
  assert (Hcs : Forall call_aligned list_node) by (repeat constructor).
  split; [lia |]. split; [exact Hcs |].
  apply aligned_clients_always_get_answers; [lia | exact Hcs].
Defined.

(** ** The order of the members of a union *)

Lemma union_loop_ext rec1 rec2 ms size :
  (forall t, rec1 t = rec2 t) ->
  union_loop rec1 ms size = union_loop rec2 ms size.
Proof.
  intros Hrec. revert size.
  induction ms as [| m ms IH]; intros size; [reflexivity |].
  cbn [union_loop]. rewrite Hrec.
  destruct (rec2 (m_type m)) as [r | |]; cbn [mbind outcome_bind];
    [| reflexivity | reflexivity].
  destruct (Int.mul r (arr_count m) =? 0); [reflexivity | apply IH].
Qed.

Lemma struct_last_ext rec1 rec2 ms :
  (forall t, rec1 t = rec2 t) -> struct_last rec1 ms = struct_last rec2 ms.
Proof.
  intros Hrec. unfold struct_last.
  destruct (last ms); [now rewrite Hrec | reflexivity].
Qed.

Lemma existsb_perm {A} (f : A -> bool) (l l' : list A) :
  l ≡ₚ l' -> existsb f l = existsb f l'.
Proof.
  induction 1 as [| x l l' _ IH | x y l | l1 l2 l3 _ IH1 _ IH2]; simpl.
  - reflexivity.
  - now rewrite IH.
  - now destruct (f x), (f y).
  - congruence.
Qed.

Lemma max_extent_perm (l l' : list Z) :
  l ≡ₚ l' -> max_extent l = max_extent l'.
Proof.
  unfold max_extent.
  induction 1 as [| x l l' _ IH | x y l | l1 l2 l3 _ IH1 _ IH2]; simpl.
  - reflexivity.
  - now rewrite IH.
  - lia.
  - congruence.
Qed.

Lemma mapM_member_extent rec (g : string -> Z) ms :
  (forall t, rec t = Ok (g t)) ->
  mapM (member_extent rec) ms
  = Ok (map (fun m => Int.mul (g (m_type m)) (arr_count m)) ms).
Proof.
  intros Hrec. induction ms as [| m ms IH]; [reflexivity |].
  cbn [mapM map]. rewrite IH. unfold member_extent. rewrite Hrec.
  reflexivity.
Qed.

Lemma union_loop_perm rec ms ms' :
  (forall t, exists r, rec t = Ok r) -> ms ≡ₚ ms' ->
  union_loop rec ms 0 = union_loop rec ms' 0.
Proof.
  intros Hrec Hperm.
  set (g := fun t => match rec t with Ok r => r | _ => 0 end).
  assert (Hg : forall t, rec t = Ok (g t)).
  { intros t. unfold g. now destruct (Hrec t) as [r ->]. }
  rewrite (union_loop_max rec ms _ 0 ltac:(lia)
             (mapM_member_extent rec g ms Hg)).
  rewrite (union_loop_max rec ms' _ 0 ltac:(lia)
             (mapM_member_extent rec g ms' Hg)).
  assert (Hp : map (fun m => Int.mul (g (m_type m)) (arr_count m)) ms
               ≡ₚ map (fun m => Int.mul (g (m_type m)) (arr_count m)) ms')
    by now apply Permutation_map.
  now rewrite (existsb_perm _ _ _ Hp), (max_extent_perm _ _ Hp).
Qed.

Lemma with_members_aligned tm name s ms :
  aligned tm -> structs tm !! name = Some s ->
  aligned (with_members tm name s ms).
Proof.
  intros Hal Hs.
  eapply (aligned_insert tm); [exact Hal | | reflexivity].
  simpl. eapply Hal, Hs.
Qed.

Lemma getSizeof_reordered_union fuel tm name s ms' type depth :
  aligned tm -> structs tm !! name = Some s -> isunion s = true ->
  members s ≡ₚ ms' -> Z.max 0 (100 - depth) < Z.of_nat fuel ->
  getSizeof fuel (with_members tm name s ms') type depth
  = getSizeof fuel tm type depth.
Proof.
  intros Hal Hs Hu Hperm. revert type depth.
  induction fuel as [| fuel IH]; intros type depth Hfuel;
    [simpl in Hfuel; lia |].
  cbn [getSizeof].
  destruct (Z.geb_spec depth 100) as [Hd | Hd]; [reflexivity |].
  change (primitives (with_members tm name s ms')) with (primitives tm).
  change (types (with_members tm name s ms')) with (types tm).
  change (primitivesizes (with_members tm name s ms'))
    with (primitivesizes tm).
  destruct (primitives tm !! type); [reflexivity |].
  destruct (types tm !! type); [reflexivity |].
  assert (Hrec : forall t,
    getSizeof fuel (with_members tm name s ms') t (depth + 1)
      ≫= (fun r => Ok r.1)
    = getSizeof fuel tm t (depth + 1) ≫= (fun r => Ok r.1)).
  { intros t. rewrite IH by lia. reflexivity. }
  unfold with_members at 1. cbn [structs set_structs].
  destruct (decide (name = type)) as [<- | Hne].
  - rewrite lookup_insert_eq, Hs. cbn [members isunion alignment].
    rewrite Hu.
    rewrite <- (Permutation_length Hperm).
    destruct (length (members s) =? 0)%nat; [reflexivity |].
    rewrite (union_loop_ext _ _ ms' 0 Hrec).
    rewrite <- (union_loop_perm _ (members s) ms'); [reflexivity | | exact Hperm].
    intros t.
    destruct (getSizeof_returns fuel tm t (depth + 1) Hal) as [r ->];
      [lia | cbn [mbind outcome_bind]; eauto].
  - rewrite lookup_insert_ne by assumption.
    destruct (structs tm !! type) as [s0 |]; [| reflexivity].
    destruct (length (members s0) =? 0)%nat; [reflexivity |].
    destruct (isunion s0);
      [rewrite (union_loop_ext _ _ _ _ Hrec)
      | rewrite (struct_last_ext _ _ _ Hrec)]; reflexivity.
Qed.

(** X12.  When every aggregate has a positive alignment, the order of
    the members of a union does not matter: with the members of one
    union permuted, every name has the size it had, the union itself
    and every type built on it included. *)
Theorem union_member_order_is_irrelevant (tm : TypeManager) (name : string)
    (s : StructUnion) (ms' : list Member) (type : string) :
  aligned tm -> structs tm !! name = Some s -> isunion s = true ->
  members s ≡ₚ ms' ->
  Sizeof (with_members tm name s ms') type = Sizeof tm type /\
  forall fuel depth, Z.max 0 (100 - depth) < Z.of_nat fuel ->
    getSizeof fuel (with_members tm name s ms') type depth
    = getSizeof fuel tm type depth.
Proof.
  intros Hal Hs Hu Hperm. split.
  - unfold Sizeof.
    rewrite (getSizeof_reordered_union depth_fuel tm name s ms')
      by (assumption || (unfold depth_fuel; lia)).
    reflexivity.
  - intros fuel depth Hfuel. now apply getSizeof_reordered_union.
Qed.

Lemma aligned_by_computation tm :
  map_Forall (fun _ s => (0 <? alignment s) = true) (structs tm) ->
  aligned tm.
Proof.
  intros H n s Hs. apply Z.ltb_lt.
  exact (map_Forall_lookup_1 _ _ n s H Hs).
Qed.

Lemma union_member_order_is_irrelevant_witness :
  aligned (state_after 8 (union_ab 4)) /\
  Sizeof
    (with_members (state_after 8 (union_ab 4)) "u"
       (mkStructUnion true 4 "u"
          [mkMember "a" "int8" 0 0; mkMember "b" "int32" 4 0])
       [mkMember "b" "int32" 4 0; mkMember "a" "int8" 0 0]) "u"
  = Sizeof (state_after 8 (union_ab 4)) "u".
Proof.
  assert (Hal : aligned (state_after 8 (union_ab 4))).
  { apply aligned_by_computation, (bool_decide_unpack _).
    vm_compute. exact I. }
  split; [exact Hal |].
  apply union_member_order_is_irrelevant;
    [exact Hal | vm_compute; reflexivity | reflexivity | apply perm_swap].
Defined.

(** ** Where an automatic offset puts a member *)

(** X13.  In a struct of positive alignment whose last member has a
    positive extent, and short of overflow, a member added with an
    automatic offset starts either where the last member ends or at the
    next multiple of the alignment after that end: never before the
    end of the last member. *)
Theorem auto_offset_follows_last_member (tm : TypeManager)
    (parent name type : string) (offset arrsize : Z) (tm' : TypeManager)
    (s : StructUnion) (l : Member) (r : Z) (stored : option Z) :
  primitives tm !! parent = None -> types tm !! parent = None ->
  structs tm !! parent = Some s -> isunion s = false ->
  last (members s) = Some l ->
  getSizeof 100 tm (m_type l) 1 = Ok (r, stored) ->
  0 < r * arr_count l -> 0 <= m_offset l -> 0 < alignment s ->
  round_up (m_offset l + r * arr_count l) (alignment s) <= Int.max_int ->
  offset < 0 ->
  AddMember tm parent name type offset arrsize = Ok (true, tm') ->
  exists off,
    structs tm' !! parent
    = Some (with_member s (mkMember name type off arrsize)) /\
    (off = m_offset l + r * arr_count l \/
     off = round_up (m_offset l + r * arr_count l) (alignment s)) /\
    m_offset l + r * arr_count l <= off.
Proof.
  intros HP HT HS Hu Hl Hr Hpos Hoff Hal Hmax Hneg Hadd.
  pose proof (getSizeof_struct_round_up 100 tm parent 0 s l r stored
                HP HT HS Hu Hl ltac:(lia) Hr Hpos Hoff Hal Hmax) as Hsize.
  destruct (round_up_bounds (m_offset l + r * arr_count l) (alignment s))
    as (_ & [Hlo Hhi] & _); [lia | lia |].
  apply AddMember_auto in Hadd; [| exact Hneg].
  destruct Hadd as (s0 & size & pad & typesize & off & Hs0 & Hg & _ &
                    Hback & Hstay & ->).
  assert (s0 = s) as -> by congruence.
  change depth_fuel with (S 100) in Hg. rewrite Hsize in Hg.
  injection Hg as <- <-.
  exists off. split; [apply push_member_lookup |].
  assert (He : 0 < m_offset l + r * arr_count l) by lia.
  set (e := m_offset l + r * arr_count l) in *.
  set (R := round_up e (alignment s)) in *.
  destruct (Z.eq_dec (R - e) 0) as [Hz | Hnz];
    [rewrite (Hstay (or_introl Hz)); split; [now right | lia] |].
  destruct (Z.le_gt_cases typesize (R - e)) as [Hle | Hgt].
  - rewrite (Hback (conj Hnz Hle)).
    assert (Int.sub R (R - e) = e) as ->.
    { unfold Int.sub. replace (R - (R - e)) with e by lia.
      apply wrap_in_range.
      unfold Int.in_range, Int.min_int, Int.max_int in *. lia. }
    split; [now left | lia].
  - rewrite (Hstay (or_intror Hgt)). split; [now right | lia].
Qed.

Lemma auto_offset_follows_last_member_witness :
  exists off,
    structs (state_after 8 struct_ab) !! "s"
    = Some (with_member (mkStructUnion false 8 "s" [mkMember "a" "int32" 0 0])
              (mkMember "b" "int64" off 0)) /\
    (off = 4 \/ off = 8) /\ 4 <= off.
Proof.
  apply (auto_offset_follows_last_member (state_after 8 struct_a)
           "s" "b" "int64" auto_offset 0 (state_after 8 struct_ab)
           (mkStructUnion false 8 "s" [mkMember "a" "int32" 0 0])
           (mkMember "a" "int32" 0 0) 4 (Some 0));
    try (vm_compute; reflexivity); vm_compute; discriminate.
Defined.

(** ** Registering spellings *)

Lemma has_comma_snoc a ch :
  has_comma (a +:+ String ch "")
  = has_comma a || Ascii.eqb ch ","%char.
Proof.
  induction a as [| c a IH]; simpl.
  - now rewrite orb_false_r.
  - rewrite IH. now rewrite orb_assoc.
Qed.

Lemma length_pos_nonempty a : (0 <? String.length a)%nat = true <-> a <> "".
Proof.
  destruct a; simpl; split; intros H;
    try discriminate; try reflexivity; now contradiction H.
Qed.

Lemma map_insert_new_keeps {V} (k : string) (v : V) (m : gmap string V) k' v' :
  m !! k' = Some v' -> map_insert_new k v m !! k' = Some v'.
Proof.
  intros H. unfold map_insert_new. destruct (m !! k) eqn:Hk; [exact H |].
  rewrite lookup_insert_ne; [exact H | congruence].
Qed.

Lemma map_insert_new_from {V} (k : string) (v : V) (m : gmap string V) k' v' :
  map_insert_new k v m !! k' = Some v' ->
  m !! k' = Some v' \/ (k' = k /\ v' = v /\ m !! k = None).
Proof.
  unfold map_insert_new. destruct (m !! k) eqn:Hk; [auto |].
  destruct (decide (k = k')) as [<- | Hne].
  - rewrite lookup_insert_eq. intros [= <-]. auto.
  - rewrite lookup_insert_ne by assumption. auto.
Qed.

Lemma p_loop_spellings n pr a prims a' prims' :
  has_comma a = false -> p_loop n pr a prims = (a', prims') ->
  has_comma a' = false /\
  (forall k v, prims !! k = Some v -> prims' !! k = Some v) /\
  (forall k v, prims' !! k = Some v ->
     prims !! k = Some v \/ (v = pr /\ clean_spelling k /\ prims !! k = None)).
Proof.
  revert a prims.
  induction n as [| ch n IH]; intros a prims Ha H.
  - injection H as <- <-. auto.
  - cbn [p_loop] in H. destruct (Ascii.eqb ch ","%char) eqn:Hch.
    + apply IH in H as (Ha' & Hkeep & Hfrom); [| reflexivity].
      split; [exact Ha' |]. split.
      * intros k v Hk. apply Hkeep.
        destruct (0 <? String.length a)%nat; [| exact Hk].
        now apply map_insert_new_keeps.
      * intros k v Hk.
        destruct (Hfrom k v Hk) as [Hold | (-> & Hc & Hnone)].
        -- destruct (0 <? String.length a)%nat eqn:Hlen; [| now left].
           apply map_insert_new_from in Hold as [Hold | (-> & -> & Hn)];
             [now left | right].
           split; [reflexivity |]. split; [| exact Hn].
           split; [now apply length_pos_nonempty | exact Ha].
        -- right. split; [reflexivity |]. split; [exact Hc |].
           destruct (prims !! k) eqn:Hpk; [| reflexivity].
           destruct (0 <? String.length a)%nat;
             [erewrite map_insert_new_keeps in Hnone by exact Hpk
             | rewrite Hpk in Hnone]; discriminate.
    + apply IH in H; [exact H |].
      now rewrite has_comma_snoc, Ha, Hch.
Qed.

(** X14.  The lambda [p] of [setupPrimitives] never rebinds a spelling
    that is already registered, whatever the list it is given: every
    entry stays, every entry it adds is a new, non-empty, comma-free
    spelling bound to the given kind, it sets the width of that kind,
    and it touches nothing else. *)
Theorem p_registers_new_clean_spellings (n : string) (pr : Primitive)
    (bitsize : Z) (tm : TypeManager) :
  (forall k v, primitives tm !! k = Some v ->
     primitives (p n pr bitsize tm) !! k = Some v) /\
  (forall k v, primitives (p n pr bitsize tm) !! k = Some v ->
     primitives tm !! k = Some v \/
     (v = pr /\ clean_spelling k /\ primitives tm !! k = None)) /\
  primitivesizes (p n pr bitsize tm) = <[pr := bitsize]> (primitivesizes tm) /\
  types (p n pr bitsize tm) = types tm /\
  structs (p n pr bitsize tm) = structs tm /\
  laststruct (p n pr bitsize tm) = laststruct tm.
Proof.
  unfold p.
  destruct (p_loop n pr "" (primitives tm)) as [a prims] eqn:Hloop.
  apply p_loop_spellings in Hloop as (Ha & Hkeep & Hfrom); [| reflexivity].
  simpl. split; [| split; [| auto]].
  - intros k v Hk. specialize (Hkeep k v Hk).
    destruct (0 <? String.length a)%nat; [| exact Hkeep].
    now apply map_insert_new_keeps.
  - intros k v Hk.
    destruct (0 <? String.length a)%nat eqn:Hlen; [| now apply Hfrom].
    apply map_insert_new_from in Hk as [Hk | (-> & -> & Hn)];
      [now apply Hfrom | right].
    split; [reflexivity |].
    split; [split; [now apply length_pos_nonempty | exact Ha] |].
    destruct (primitives tm !! a) eqn:Hpa; [| reflexivity].
    rewrite (Hkeep _ _ Hpa) in Hn. discriminate.
Qed.

(** ** A name is defined once *)

Lemma extends_isDefined tm tm' n :
  extends tm tm' -> isDefined tm n = true -> isDefined tm' n = true.
Proof.
  intros (HP & HT & HS). unfold isDefined, mapContains. rewrite HP.
  destruct (primitives tm !! n); [reflexivity |].
  destruct (types tm !! n) as [t |] eqn:Ht;
    [now rewrite (HT n t Ht) |].
  destruct (structs tm !! n) as [s |] eqn:Hs; [| discriminate].
  destruct (HS n s Hs) as (s' & -> & _). intros _. now rewrite orb_true_r.
Qed.

Lemma exec_defined_fails sizeof_ptr c tm n b tm' :
  defines c n -> isDefined tm n = true ->
  exec sizeof_ptr c tm = Ok (b, tm') -> b = false.
Proof.
  intros Hc Hdef H.
  destruct c; simpl in Hc; try contradiction; subst; simpl in H;
    apply Ok_pair in H as [-> _].
  - unfold AddType_str. destruct (primitives tm !! primitive);
      [| reflexivity].
    unfold AddType. now rewrite Hdef.
  - unfold AddType. now rewrite Hdef.
  - unfold AddType_t. now rewrite Hdef.
  - now rewrite AddStruct_defined.
  - now rewrite AddStruct_s_defined.
  - now rewrite AddUnion_defined.
  - now rewrite AddUnion_u_defined.
Qed.

Lemma run_defined_fails sizeof_ptr cs tm bs tm' n :
  isDefined tm n = true -> run sizeof_ptr cs tm = Ok (bs, tm') ->
  isDefined tm' n = true /\
  forall i c, cs !! i = Some c -> defines c n -> bs !! i = Some false.
Proof.
  revert tm bs.
  induction cs as [| c cs IH]; intros tm bs Hdef H.
  - injection H as <- <-. split; [exact Hdef |]. intros i c Hi. discriminate.
  - apply run_cons in H as (b & tm1 & bs1 & Hc & Hcs & ->).
    assert (Hdef1 : isDefined tm1 n = true).
    { eapply extends_isDefined; [| exact Hdef].
      eapply effect_extends;
        [eapply exec_primitives, Hc | eapply exec_effect, Hc]. }
    destruct (IH tm1 bs1 Hdef1 Hcs) as [Hfin Hall].
    split; [exact Hfin |].
    intros [| i] c' Hi Hd; simpl in Hi; simpl.
    + injection Hi as <-. f_equal.
      exact (exec_defined_fails sizeof_ptr c tm n b tm1 Hd Hdef Hc).
    + now apply (Hall i c').
Qed.

(** X15.  A name is defined once and for all: once a name is defined
    (as a spelling, a type or an aggregate), it stays defined through
    every later call, and every later call that asks for a type or an
    aggregate of that name returns false. *)
Theorem defined_names_stay_taken (sizeof_ptr : Z) (cs : list call)
    (tm : TypeManager) (bs : list bool) (tm' : TypeManager) (n : string) :
  isDefined tm n = true -> run sizeof_ptr cs tm = Ok (bs, tm') ->
  isDefined tm' n = true /\
  forall i c, cs !! i = Some c -> defines c n -> bs !! i = Some false.
Proof. apply run_defined_fails. Qed.

Lemma defined_names_stay_taken_witness :
  isDefined (state_after 8 struct_a) "s" = true /\
  run 8 [CAddType "s" Int8 0 ""; CAddUnion "t" 0; CAddUnion "s" 0]
    (state_after 8 struct_a)
  = Ok ([false; true; false],
        state_after 8 (struct_a ++
          [CAddType "s" Int8 0 ""; CAddUnion "t" 0; CAddUnion "s" 0])) /\
  isDefined (state_after 8 (struct_a ++
      [CAddType "s" Int8 0 ""; CAddUnion "t" 0; CAddUnion "s" 0])) "s" = true.
Proof.
  assert (Hdef : isDefined (state_after 8 struct_a) "s" = true)
    by (vm_compute; reflexivity).
  assert (Hrun :
    run 8 [CAddType "s" Int8 0 ""; CAddUnion "t" 0; CAddUnion "s" 0]
      (state_after 8 struct_a)
    = Ok ([false; true; false],
          state_after 8 (struct_a ++
            [CAddType "s" Int8 0 ""; CAddUnion "t" 0; CAddUnion "s" 0])))
    by (vm_compute; reflexivity).
  split; [exact Hdef |]. split; [exact Hrun |].
  exact (proj1 (defined_names_stay_taken 8 _ _ _ _ "s" Hdef Hrun)).
Defined.

(** ** Nesting deeper than the cap *)

Lemma getSizeof_nested fuel tm k type depth :
  nested tm k type = true -> 100 <= depth + Z.of_nat k ->
  Z.max 0 (100 - depth) < Z.of_nat fuel ->
  exists stored, getSizeof fuel tm type depth = Ok (0, stored).
Proof.
  revert k type depth.
  induction fuel as [| fuel IH]; intros k type depth Hk Hdeep Hfuel;
    [simpl in Hfuel; lia |].
  cbn [getSizeof].
  destruct (Z.geb_spec depth 100) as [Hd | Hd]; [eauto |].
  destruct k as [| k]; [lia |]. cbn [nested] in Hk.
  destruct (primitives tm !! type); [discriminate |].
  destruct (types tm !! type); [discriminate |].
  destruct (structs tm !! type) as [s |]; [| discriminate].
  destruct (members s) as [| m0 ms] eqn:Hms;
    [destruct (isunion s); discriminate |].
  change (length (m0 :: ms) =? 0)%nat with false. cbv iota.
  destruct (isunion s).
  - cbn [head] in Hk.
    destruct (IH k (m_type m0) (depth + 1) Hk) as [st Hrec]; [lia | lia |].
    cbn [union_loop]. rewrite Hrec. simpl. eauto.
  - destruct (last (m0 :: ms)) as [l |] eqn:Hl; [| discriminate].
    destruct (IH k (m_type l) (depth + 1) Hk) as [st Hrec]; [lia | lia |].
    unfold struct_last. rewrite Hl, Hrec. simpl. eauto.
Qed.

(** X16.  The depth cap also cuts off types that are not cyclic: a
    name whose layout passes through 100 or more nested aggregates has
    size 0, whatever lies at the bottom of the nesting; at depth [d]
    the limit is [100 - d] aggregates. *)
Theorem nesting_beyond_the_cap_is_zero (tm : TypeManager) (k : nat)
    (type : string) (depth : Z) (fuel : nat) :
  nested tm k type = true -> 100 <= depth + Z.of_nat k ->
  Z.max 0 (100 - depth) < Z.of_nat fuel ->
  (exists stored, getSizeof fuel tm type depth = Ok (0, stored)) /\
  (depth <= 0 -> Sizeof tm type = Ok 0).
Proof.
  intros Hk Hdeep Hfuel. split; [now apply (getSizeof_nested fuel tm k) |].
  intros Hd. unfold Sizeof.
  destruct (getSizeof_nested depth_fuel tm k type 0 Hk) as [st ->];
    [lia | unfold depth_fuel; lia | reflexivity].
Qed.

Lemma nesting_beyond_the_cap_is_zero_witness :
  nested (state_after 8 (tower 99)) 100 (level 99) = true /\
  Sizeof (state_after 8 (tower 99)) (level 99) = Ok 0 /\
  Sizeof (state_after 8 (tower 99)) (level 98) = Ok 1.
Proof.
  assert (Hn : nested (state_after 8 (tower 99)) 100 (level 99) = true)
    by (vm_compute; reflexivity).
  split; [exact Hn |]. split; [| vm_compute; reflexivity].
  apply (nesting_beyond_the_cap_is_zero _ 100 (level 99) 0 101 Hn);
    [vm_compute; discriminate | vm_compute; reflexivity | lia].
Defined.

(** ** A new aggregate and its first member *)

Lemma AddStruct_s_fresh tm s :
  isDefined tm (su_name s) = false ->
  AddStruct_s tm s
  = (true, set_structs (<[su_name s := s]> (structs tm))
             (set_laststruct (su_name s) tm)).
Proof.
  intros Hdef. unfold AddStruct_s.
  change (isDefined (set_laststruct (su_name s) tm) (su_name s))
    with (isDefined tm (su_name s)).
  rewrite Hdef. unfold map_insert_new. simpl.
  now destruct (isDefined_false _ _ Hdef) as (_ & _ & ->).
Qed.

Lemma first_member_auto_gen tm1 s mname type arrsize typesize :
  primitives tm1 !! su_name s = None -> types tm1 !! su_name s = None ->
  structs tm1 !! su_name s = Some s -> laststruct tm1 = su_name s ->
  members s = [] ->
  Sizeof tm1 (su_name s) = Ok 0 /\
  (isDefined tm1 type = true -> 0 <= arrsize ->
   Sizeof tm1 type = Ok typesize ->
   AppendMember tm1 mname type auto_offset arrsize
   = Ok (true, push_member tm1 (su_name s) s
                 (mkMember mname type 0 arrsize))).
Proof.
  intros HP HT Hs Hlast Hms.
  assert (Hg : getSizeof depth_fuel tm1 (su_name s) 0 = Ok (0, Some 0)).
  { unfold depth_fuel. apply getSizeof_unknown; [exact HP | exact HT | | lia].
    intros s' Hs'. rewrite Hs in Hs'. now injection Hs' as <-. }
  split; [unfold Sizeof; now rewrite Hg |].
  intros Htype Harr Hsize.
  unfold AppendMember, AddMember.
  rewrite Hlast, Hs, Htype, Hms, Hg, Hsize.
  destruct (Z.ltb_spec arrsize 0); [lia |].
  destruct (Z.ltb_spec auto_offset 0) as [_ | Hge];
    [| unfold auto_offset in Hge; lia].
  reflexivity.
Qed.

Lemma first_member_auto tm s mname type arrsize typesize :
  isDefined tm (su_name s) = false -> members s = [] ->
  let tm1 := set_structs (<[su_name s := s]> (structs tm))
               (set_laststruct (su_name s) tm) in
  Sizeof tm1 (su_name s) = Ok 0 /\
  (isDefined tm1 type = true -> 0 <= arrsize ->
   Sizeof tm1 type = Ok typesize ->
   AppendMember tm1 mname type auto_offset arrsize
   = Ok (true, push_member tm1 (su_name s) s
                 (mkMember mname type 0 arrsize))).
Proof.
  intros Hdef Hms.
  destruct (isDefined_false _ _ Hdef) as (HP & HT & _).
  apply first_member_auto_gen;
    [exact HP | exact HT | simpl; apply lookup_insert_eq | reflexivity
    | exact Hms].
Qed.

(** X17.  [AddStruct] and [AddUnion] on a name that is not defined
    return true and make an empty aggregate of that name, of the given
    alignment if it is positive and of the pointer size otherwise, which
    is the current aggregate and has size 0.  The first [AppendMember]
    with an automatic offset then puts its member at offset 0. *)
Theorem new_aggregate_and_first_member (sizeof_ptr : Z) (tm : TypeManager)
    (name : string) (align : Z) (isu : bool) (mname type : string)
    (arrsize typesize : Z) :
  isDefined tm name = false ->
  let create := if isu then AddUnion else AddStruct in
  let s := mkStructUnion isu (if align >? 0 then align else sizeof_ptr)
             name [] in
  let tm1 := (create sizeof_ptr tm name align).2 in
  (create sizeof_ptr tm name align).1 = true /\
  structs tm1 !! name = Some s /\ laststruct tm1 = name /\
  (forall n, n <> name -> structs tm1 !! n = structs tm !! n) /\
  Sizeof tm1 name = Ok 0 /\
  (isDefined tm1 type = true -> 0 <= arrsize ->
   Sizeof tm1 type = Ok typesize ->
   AppendMember tm1 mname type auto_offset arrsize
   = Ok (true, push_member tm1 name s (mkMember mname type 0 arrsize))).
Proof.
  intros Hdef create s tm1.
  assert (Hcreate : create sizeof_ptr tm name align
                    = (true, set_structs (<[su_name s := s]> (structs tm))
                               (set_laststruct (su_name s) tm))).
  { unfold create, s. destruct isu.
    - unfold AddUnion, AddUnion_u. simpl.
      destruct (align >? 0); simpl;
        change (isDefined (set_laststruct name tm) name)
          with (isDefined tm name);
        rewrite Hdef; unfold map_insert_new; simpl;
        now destruct (isDefined_false _ _ Hdef) as (_ & _ & ->).
    - unfold AddStruct. simpl.
      destruct (align >? 0); now rewrite AddStruct_s_fresh. }
  unfold tm1. rewrite Hcreate. cbn [fst snd].
  destruct (first_member_auto tm s mname type arrsize typesize Hdef eq_refl)
    as [Hzero Hfirst].
  split; [reflexivity |].
  split; [simpl; apply lookup_insert_eq |].
  split; [reflexivity |].
  split; [intros n Hn; simpl; apply lookup_insert_ne; congruence |].
  split; [exact Hzero | exact Hfirst].
Qed.

Lemma new_aggregate_and_first_member_witness :
  isDefined (TypeManager_new 8) "pair" = false /\
  (AddStruct 8 (TypeManager_new 8) "pair" 0).1 = true /\
  structs (AddStruct 8 (TypeManager_new 8) "pair" 0).2 !! "pair"
  = Some (mkStructUnion false 8 "pair" []) /\
  AppendMember (AddStruct 8 (TypeManager_new 8) "pair" 0).2
    "first" "int32" auto_offset 0
  = Ok (true,
        push_member (AddStruct 8 (TypeManager_new 8) "pair" 0).2 "pair"
          (mkStructUnion false 8 "pair" []) (mkMember "first" "int32" 0 0)).
Proof.
  assert (Hdef : isDefined (TypeManager_new 8) "pair" = false)
    by (vm_compute; reflexivity).
  destruct (new_aggregate_and_first_member 8 (TypeManager_new 8) "pair" 0
              false "first" "int32" 0 4 Hdef)
    as (Hok & Hs & _ & _ & _ & Hfirst).
  split; [exact Hdef |]. split; [exact Hok |]. split; [exact Hs |].
  apply Hfirst; [vm_compute; reflexivity | lia | vm_compute; reflexivity].
Defined.
